(** * The chess-trainer page: FEN decoder and markdown renderer

    A shallow embedding of the two pure helpers of [src/app/page.tsx]:
    [parseFEN] (the board decoder, called [decodeBoard] in the
    specification) and [renderMarkdown] with [formatInline] (called
    [renderBlocks] there).

    JavaScript strings are sequences of UTF-16 code units; they are
    modelled as lists of integers.  The few built-ins the two helpers call
    ([split], [startsWith], [slice], [trim], [parseInt], string comparison,
    iteration by code point, the two regular expressions) are modelled in
    [Module JS] after ECMA-262. *)

From Stdlib Require Import String Ascii List ZArith Lia Bool.
From Equations Require Import Equations.
Import ListNotations.
Local Open Scope Z_scope.

(** Pattern matching on a value while remembering what it was. *)
Definition observe {A : Type} (x : A) : { y : A | x = y } := exist _ x eq_refl.

(* ================================================================== *)
(** * The JavaScript runtime the helpers rely on *)
(* ================================================================== *)

Module JS.

(** A string is its sequence of UTF-16 code units. *)
Definition jsstring := list Z.

(** String literals of the source (all ASCII) as code units. *)
Definition lit (s : string) : jsstring :=
  map (fun a => Z.of_N (N_of_ascii a)) (list_ascii_of_string s).
Arguments lit s%_string.

(** What a caller can pass where TypeScript says [string]: a string, or
    nothing at all. *)
Inductive value : Type :=
| undefined
| null
| str (s : jsstring).

(** [!v] is [negb (ToBoolean v)]: only the empty string is a falsy string. *)
Definition ToBoolean (v : value) : bool :=
  match v with
  | str (_ :: _) => true
  | _ => false
  end.

(** Completion of an evaluation: a value, or a thrown [TypeError]. *)
Inductive completion (A : Type) : Type :=
| Normal (a : A)
| ThrowTypeError.
Arguments Normal {A} a.
Arguments ThrowTypeError {A}.

Definition bind {A B} (c : completion A) (k : A -> completion B) : completion B :=
  match c with
  | Normal a => k a
  | ThrowTypeError => ThrowTypeError
  end.

Notation "x <- c ;; k" := (bind c (fun x => k))
  (at level 61, c at next level, right associativity).

(** ** [String.prototype.split] with a one-code-unit separator

    The pieces between the occurrences of [sep]; there is always at least
    one piece ([''.split('/')] is [['']]). *)
Fixpoint split (sep : Z) (s : jsstring) : list jsstring :=
  match s with
  | [] => [[]]
  | c :: t =>
      if c =? sep then [] :: split sep t
      else match split sep t with
           | piece :: pieces => (c :: piece) :: pieces
           | [] => [[c]]
           end
  end.

(** [v.split(sep)]: reading a property of [undefined] or [null] throws. *)
Definition call_split (v : value) (sep : Z) : completion (list jsstring) :=
  match v with
  | str s => Normal (split sep s)
  | undefined | null => ThrowTypeError
  end.

(** ** Iteration by code point ([for (const char of row)])

    A lead surrogate followed by a trail surrogate is one character of two
    code units; every other code unit is a character of its own. *)
Definition isLeadSurrogate (c : Z) : bool := (55296 <=? c) && (c <=? 56319).
Definition isTrailSurrogate (c : Z) : bool := (56320 <=? c) && (c <=? 57343).

Fixpoint codePoints (s : jsstring) : list jsstring :=
  match s with
  | [] => []
  | c :: t =>
      match t with
      | d :: t' =>
          if isLeadSurrogate c && isTrailSurrogate d
          then [c; d] :: codePoints t'
          else [c] :: codePoints t
      | [] => [[c]]
      end
  end.

(** The characters the iteration yields: one code unit, or a surrogate pair. *)
Definition isCodePoint (char : jsstring) : Prop :=
  (exists c, char = [c]) \/
  (exists c d, char = [c; d] /\ isLeadSurrogate c = true /\ isTrailSurrogate d = true).

(** ** Relational comparison of strings: lexicographic on code units *)
Fixpoint str_lt (a b : jsstring) : bool :=
  match a, b with
  | _, [] => false
  | [], _ :: _ => true
  | x :: a', y :: b' =>
      if x <? y then true else if y <? x then false else str_lt a' b'
  end.

(** [a >= b] is [!(a < b)] and [a <= b] is [!(b < a)] on strings. *)
Definition str_ge (a b : jsstring) : bool := negb (str_lt a b).
Definition str_le (a b : jsstring) : bool := negb (str_lt b a).

(** ** White space

    [WhiteSpace] and [LineTerminator] of ECMA-262: what [trim] strips and
    what [\s] matches. *)
Definition isLineTerminator (c : Z) : bool :=
  (c =? 10) || (c =? 13) || (c =? 8232) || (c =? 8233).

Definition isWhiteSpace (c : Z) : bool :=
  (c =? 9) || (c =? 11) || (c =? 12) || (c =? 32) || (c =? 160)
  || (c =? 5760) || ((8192 <=? c) && (c <=? 8202))
  || (c =? 8239) || (c =? 8287) || (c =? 12288) || (c =? 65279).

Definition isSpace (c : Z) : bool := isWhiteSpace c || isLineTerminator c.

Fixpoint trimStart (s : jsstring) : jsstring :=
  match s with
  | c :: t => if isSpace c then trimStart t else s
  | [] => []
  end.

Definition trim (s : jsstring) : jsstring := rev (trimStart (rev (trimStart s))).

(** ** [parseInt(s)] with no radix: [None] is [NaN] *)
Definition digitValue (c : Z) : option Z :=
  if (48 <=? c) && (c <=? 57) then Some (c - 48)
  else if (97 <=? c) && (c <=? 122) then Some (c - 87)
  else if (65 <=? c) && (c <=? 90) then Some (c - 55)
  else None.

(** The longest prefix of digits of radix [R], read as a number. *)
Fixpoint readDigits (R : Z) (s : jsstring) (acc : option Z) : option Z :=
  match s with
  | [] => acc
  | c :: t =>
      match digitValue c with
      | Some d =>
          if d <? R
          then readDigits R t (Some (R * match acc with Some a => a | None => 0 end + d))
          else acc
      | None => acc
      end
  end.

Definition parseInt (s : jsstring) : option Z :=
  let s1 := trimStart s in
  let '(sign, s2) :=
    match s1 with
    | 45 :: t => (-1, t)
    | 43 :: t => (1, t)
    | _ => (1, s1)
    end in
  let '(R, s3) :=
    match s2 with
    | 48 :: 120 :: t => (16, t)
    | 48 :: 88 :: t => (16, t)
    | _ => (10, s2)
    end in
  option_map (Z.mul sign) (readDigits R s3 None).

(** [i < n] on numbers; every comparison with [NaN] is false. *)
Definition num_lt (i : Z) (n : option Z) : bool :=
  match n with
  | Some n => i <? n
  | None => false
  end.

(** ** [startsWith] and [slice] *)
Fixpoint startsWith (s prefix : jsstring) {struct prefix} : bool :=
  match prefix, s with
  | [], _ => true
  | _ :: _, [] => false
  | p :: prefix', c :: s' => (c =? p) && startsWith s' prefix'
  end.

(** [s.slice(n)] for a start index [0 <= n]. *)
Definition slice (s : jsstring) (n : nat) : jsstring := skipn n s.

End JS.

Import JS.

(* ================================================================== *)
(** * Chess logic: [parseFEN] *)
(* ================================================================== *)

Module Chess.

(** A square holds a string: [''] when empty, the piece character
    otherwise.  A board is an array of ranks. *)
Definition Square := jsstring.
Definition Rank := list Square.
Definition Board := list Rank.

Definition emptySquare : Square := lit "".

(** [for (let i = 0; i < parseInt(char); i++) squares.push('')] *)
Equations? pushEmpty (char : jsstring) (i : Z) (squares : Rank) : Rank
  by wf (Z.to_nat (match parseInt char with Some n => n | None => 0 end - i)) lt :=
  pushEmpty char i squares with observe (num_lt i (parseInt char)) => {
    | exist _ true Hlt => pushEmpty char (i + 1) (squares ++ [emptySquare]);
    | exist _ false _ => squares }.
Proof.
  unfold num_lt in Hlt. destruct (parseInt char) as [n|]; [|discriminate].
  apply Z.ltb_lt in Hlt. lia.
Qed.

(** The body of [for (const char of row)]. *)
Definition scanChar (squares : Rank) (char : jsstring) : Rank :=
  if str_ge char (lit "1") && str_le char (lit "8")
  then pushEmpty char 0 squares
  else squares ++ [char].

(** [while (squares.length < 8) squares.push('')] *)
Equations? padRank (squares : Rank) : Rank by wf (8 - length squares)%nat lt :=
  padRank squares with observe (Nat.ltb (length squares) 8) => {
    | exist _ true Hlt => padRank (squares ++ [emptySquare]);
    | exist _ false _ => squares }.
Proof.
  apply Nat.ltb_lt in Hlt.
  change (8 - length (squares ++ [emptySquare]) < 8 - length squares)%nat.
  rewrite length_app; cbn [length]. lia.
Qed.

(** The callback of [rows.map]. *)
Definition decodeRow (row : jsstring) : Rank :=
  let squares := fold_left scanChar (codePoints row) [] in
  padRank squares.

Definition emptyBoard : Board := repeat (repeat emptySquare 8) 8.

Definition parseFEN (fen : value) : completion Board :=
  if negb (ToBoolean fen) then Normal emptyBoard
  else
    fields <- call_split fen 32 ;;
    let rows :=
      match nth_error fields 0 with
      | Some placement => split 47 placement
      | None => []
      end in
    Normal (map decodeRow rows).

Definition INITIAL_FEN : jsstring :=
  lit "rnbqkbnr/pppppppp/8/8/8/8/PPPPPPPP/RNBQKBNR w KQkq - 0 1".

(** ** The decoder in the words of the specification

    These definitions follow the prose of the specification, not the
    code; the theorems below compare the two. *)

(** The value of a character that is a digit ['1'] to ['8']. *)
Definition digit18 (char : jsstring) : option nat :=
  match char with
  | [d] => if (49 <=? d) && (d <=? 56) then Some (Z.to_nat (d - 48)) else None
  | _ => None
  end.

(** The cells a character stands for: that many empty cells for a digit,
    one cell holding the character otherwise. *)
Definition cellsOf (char : jsstring) : Rank :=
  match digit18 char with
  | Some n => repeat emptySquare n
  | None => [char]
  end.

(** The expanded cell count of a rank descriptor: digit expansions plus
    literal characters. *)
Definition cellCount (row : jsstring) : nat :=
  list_sum (map (fun char => match digit18 char with Some n => n | None => 1%nat end)
                (codePoints row)).

(** The substring before the first space: the piece-placement field. *)
Fixpoint beforeSpace (s : jsstring) : jsstring :=
  match s with
  | [] => []
  | c :: t => if c =? 32 then [] else c :: beforeSpace t
  end.

(** A rank all of whose cells are empty. *)
Definition isEmptyRank (rank : Rank) : bool :=
  forallb (fun square => match square with [] => true | _ :: _ => false end) rank.

(** The ranks strictly between the ranks of index [i] and [j]. *)
Definition ranksBetween (i j : nat) (board : Board) : list Rank :=
  firstn (j - i - 1) (skipn (S i) board).

End Chess.

Import Chess.

(* ================================================================== *)
(** * Markdown renderer: [formatInline] and [renderMarkdown] *)
(* ================================================================== *)

Module Markdown.

(** ** The regular expression [/\*\*(.*?)\*\*/]

    [lazyGroup s] runs the lazy group [(.*?)] and the closing [\*\*] on
    [s]: the group grows one character at a time ([.] takes anything but a
    line terminator) until two asterisks follow.  The result is the
    captured text and what is left after the closing asterisks. *)
Fixpoint lazyGroup (s : jsstring) : option (jsstring * jsstring) :=
  match s with
  | [] => None
  | c :: t =>
      if startsWith s (lit "**") then Some ([], slice s 2)
      else if isLineTerminator c then None
      else match lazyGroup t with
           | Some (captured, rest) => Some (c :: captured, rest)
           | None => None
           end
  end.

(** One match attempt at the start of [s]. *)
Definition matchBold (s : jsstring) : option (jsstring * jsstring) :=
  if startsWith s (lit "**") then lazyGroup (slice s 2) else None.

(** ** [text.split(/\*\*(.*?)\*\*/g)]

    The split of ECMA-262 for a regular expression: the text is scanned
    from the left; where the expression matches, the piece read so far and
    the captured group are emitted and the scan resumes after the match;
    elsewhere the scan moves one code unit on.  [piece] is the text read
    since the last match. *)
Equations? splitBold (piece : jsstring) (s : jsstring) : list jsstring
  by wf (length s) lt :=
  splitBold piece [] := [piece];
  splitBold piece (c :: t) with observe (matchBold (c :: t)) => {
    | exist _ (Some (captured, rest)) Hm => piece :: captured :: splitBold [] rest;
    | exist _ None _ => splitBold (piece ++ [c]) t }.
Proof.
  clear splitBold. unfold matchBold in Hm.
  destruct (startsWith (c :: t) (lit "**")); [|discriminate].
  assert (Hshort : forall s cap r,
             lazyGroup s = Some (cap, r) -> (length r < length s)%nat).
  { induction s as [|x s IH]; intros cap r; [discriminate|].
    cbn [lazyGroup]. destruct (startsWith (x :: s) (lit "**")) eqn:Hs.
    - intros [= <- <-]. unfold slice.
      destruct s as [|y s']; [cbn in Hs; rewrite andb_false_r in Hs; discriminate|].
      cbn. lia.
    - destruct (isLineTerminator x); [discriminate|].
      destruct (lazyGroup s) as [[cap' r']|] eqn:Hg; [|discriminate].
      intros [= <- <-]. specialize (IH _ _ eq_refl). cbn [length]. lia. }
  apply Hshort in Hm. unfold slice in Hm.
  pose proof (length_skipn 2 (c :: t)) as Hk. cbn [length] in *. lia.
Qed.

(** Inline content: [<strong>] for bold, a fragment for plain text. *)
Inductive Span : Type :=
| strong (part : jsstring)
| Fragment (part : jsstring).

(** [formatInline] returns its argument as it is, or an array of spans. *)
Inductive Inline : Type :=
| Text (text : jsstring)
| Spans (spans : list Span).

(** [parts.map((part, i) => ...)] *)
Fixpoint mapi {A B : Type} (f : A -> nat -> B) (i : nat) (l : list A) : list B :=
  match l with
  | [] => []
  | x :: l' => f x i :: mapi f (S i) l'
  end.

(** The callback of [parts.map]: bold at the odd indices. *)
Definition spanAt (part : jsstring) (i : nat) : Span :=
  if Nat.eqb (i mod 2) 1 then strong part else Fragment part.

Definition formatInline (text : jsstring) : Inline :=
  let parts := splitBold [] text in
  if Nat.eqb (length parts) 1 then Text text
  else Spans (mapi spanAt 0 parts).

(** ** The regular expression [/^\d+\.\s/] *)
Definition isDigit (c : Z) : bool := (48 <=? c) && (c <=? 57).

Fixpoint skipDigits (s : jsstring) : jsstring :=
  match s with
  | c :: t => if isDigit c then skipDigits t else s
  | [] => []
  end.

(** The text after the match, when the line matches. *)
Definition matchOrdered (line : jsstring) : option jsstring :=
  match line with
  | c :: t =>
      if isDigit c then
        match skipDigits t with
        | dot :: w :: rest => if (dot =? 46) && isSpace w then Some rest else None
        | _ => None
        end
      else None
  | [] => None
  end.

(** [/^\d+\.\s/.test(line)] and [line.replace(/^\d+\.\s/, '')] *)
Definition testOrdered (line : jsstring) : bool :=
  match matchOrdered line with Some _ => true | None => false end.

Definition replaceOrdered (line : jsstring) : jsstring :=
  match matchOrdered line with Some rest => rest | None => line end.

(** ** Blocks

    The elements [renderMarkdown] builds for a line, named by their tag.
    The two kinds of [<li>] differ by their list style, [div_gap] is the
    empty [<div className="h-1" />].  The headings hold the text as it is;
    the list items and the paragraph hold the result of [formatInline].
    Class names and React keys are left out. *)
Inductive Block : Type :=
| h4 (children : jsstring)
| h3 (children : jsstring)
| h2 (children : jsstring)
| li_disc (children : Inline)
| li_decimal (children : Inline)
| div_gap
| p (children : Inline).

(** The callback of [text.split('\n').map]. *)
Definition renderLine (line : jsstring) : Block :=
  if startsWith line (lit "### ") then h4 (slice line 4)
  else if startsWith line (lit "## ") then h3 (slice line 3)
  else if startsWith line (lit "# ") then h2 (slice line 2)
  else if startsWith line (lit "- ") || startsWith line (lit "* ")
       then li_disc (formatInline (slice line 2))
  else if testOrdered line then li_decimal (formatInline (replaceOrdered line))
  else if negb (ToBoolean (str (trim line))) then div_gap
  else p (formatInline line).

(** [None] is [null]; [Some blocks] is the [<div>] around the blocks. *)
Definition renderMarkdown (text : value) : completion (option (list Block)) :=
  if negb (ToBoolean text) then Normal None
  else
    lines <- call_split text 10 ;;
    Normal (Some (map renderLine lines)).

(** ** The renderer in the words of the specification

    As for the decoder, these definitions follow the prose; the theorems
    compare them with the code. *)

(** [line] is [prefix] followed by something. *)
Definition hasPrefix (prefix line : jsstring) : Prop :=
  exists rest, line = prefix ++ rest.

(** One or more digits, a literal ['.'], one separator character, then
    [content].  [sep] says which characters separate. *)
Definition numbered (sep : Z -> bool) (line content : jsstring) : Prop :=
  exists digits w,
    digits <> [] /\ Forall (fun c => isDigit c = true) digits /\
    sep w = true /\ line = digits ++ 46 :: w :: content.

(** Empty, or white space only. *)
Definition blank (line : jsstring) : Prop := Forall (fun c => isSpace c = true) line.

(** The classification rules, in their order.  A heading of level 3, 2, 1
    is the element [h4], [h3], [h2]; an unordered item is [li_disc], an
    ordered one [li_decimal]; a blank line is [div_gap]; a paragraph is
    [p].  The last rule applies when no other does. *)
Inductive Classified (sep : Z -> bool) (line : jsstring) : Block -> Prop :=
| heading3 rest :
    line = lit "### " ++ rest -> Classified sep line (h4 rest)
| heading2 rest :
    line = lit "## " ++ rest -> Classified sep line (h3 rest)
| heading1 rest :
    line = lit "# " ++ rest -> Classified sep line (h2 rest)
| unordered rest :
    line = lit "- " ++ rest \/ line = lit "* " ++ rest ->
    Classified sep line (li_disc (formatInline rest))
| ordered content :
    numbered sep line content ->
    Classified sep line (li_decimal (formatInline content))
| blankLine :
    blank line -> Classified sep line div_gap
| paragraph :
    ~ hasPrefix (lit "### ") line -> ~ hasPrefix (lit "## ") line ->
    ~ hasPrefix (lit "# ") line ->
    ~ hasPrefix (lit "- ") line -> ~ hasPrefix (lit "* ") line ->
    (forall content, ~ numbered sep line content) ->
    ~ blank line ->
    Classified sep line (p (formatInline line)).

(** The prefixes that mark a heading or an unordered item. *)
Definition markers : list jsstring :=
  [lit "### "; lit "## "; lit "# "; lit "- "; lit "* "].

(** A numbered line whose number is followed by a tab, not by a space. *)
Definition tabbedLine : jsstring := lit "1." ++ [9] ++ lit "x".

(** Two markers around a text that holds a carriage return. *)
Definition carriageLine : jsstring := lit "**a" ++ [13] ++ lit "b**".

(** The separator of the specification's rule for ordered items: a space. *)
Definition isSpaceChar (c : Z) : bool := c =? 32.

(** The spans of an inline result; a plain string is one plain span. *)
Definition spansOf (inline : Inline) : list Span :=
  match inline with
  | Text text => [Fragment text]
  | Spans spans => spans
  end.

(** The text a span came from: a bold span stood between two markers. *)
Definition sourceOf (span : Span) : jsstring :=
  match span with
  | strong part => lit "**" ++ part ++ lit "**"
  | Fragment part => part
  end.

(** Plain and bold spans alternate, from a plain one to a plain one. *)
Fixpoint alternates (spans : list Span) : bool :=
  match spans with
  | [Fragment _] => true
  | Fragment _ :: strong _ :: spans' => alternates spans'
  | _ => false
  end.

(** What a bold span can hold: no line terminator, and no pair of
    asterisks (the marker that closes is the nearest one). *)
Definition boldContent (part : jsstring) : Prop :=
  Forall (fun c => isLineTerminator c = false) part /\
  forall before after, part <> before ++ lit "**" ++ after.

Definition wellFormedSpan (span : Span) : Prop :=
  match span with
  | strong part => boldContent part
  | Fragment _ => True
  end.

(** A pair of markers starts at the head of [s]: two asterisks, a content
    with no line terminator, two asterisks. *)
Definition pairAt (s : jsstring) : Prop :=
  exists content rest,
    s = lit "**" ++ content ++ lit "**" ++ rest /\
    Forall (fun c => isLineTerminator c = false) content.

(** The marker after [content] is the nearest one: no two asterisks in a
    row start inside [content], not even with the first closing asterisk. *)
Definition nearest (content : jsstring) : Prop :=
  forall before after, content ++ lit "*" <> before ++ lit "**" ++ after.

(** No pair starts inside [plain], read with the text [rest] after it. *)
Definition noPairIn (plain rest : jsstring) : Prop :=
  forall before after,
    plain = before ++ after -> after <> [] -> ~ pairAt (after ++ rest).

(** The decomposition of a text into plain and bold spans, from left to
    right: a plain segment in which no pair starts, then, unless the text
    ends there, a pair, whose content is bold, and the decomposition of
    what follows the pair. *)
Inductive Splits : jsstring -> list Span -> Prop :=
| lastPlain plain :
    noPairIn plain [] -> Splits plain [Fragment plain]
| plainThenBold plain content rest spans :
    noPairIn plain (lit "**" ++ content ++ lit "**" ++ rest) ->
    Forall (fun c => isLineTerminator c = false) content ->
    nearest content ->
    Splits rest spans ->
    Splits (plain ++ lit "**" ++ content ++ lit "**" ++ rest)
           (Fragment plain :: strong content :: spans).

(** A text with two pairs. *)
Definition twoPairs : jsstring := lit "a **b** c **d** e".

End Markdown.

Import Markdown.


(* ================================================================== *)
(** * More of the runtime: string equality and letter case *)
(* ================================================================== *)

Module Strings.

(** [a === b] on strings. *)
Fixpoint str_eq (a b : jsstring) : bool :=
  match a, b with
  | [], [] => true
  | x :: a', y :: b' => (x =? y) && str_eq a' b'
  | _, _ => false
  end.

(** [toLowerCase] and [toUpperCase] convert by the Unicode case tables.
    They are kept abstract below; where a theorem needs them, it assumes
    what they do on ASCII text only: the letters change case, nothing
    else changes. *)
Definition isAscii (c : Z) : bool := (0 <=? c) && (c <? 128).

Definition asciiLower (c : Z) : Z := if (65 <=? c) && (c <=? 90) then c + 32 else c.
Definition asciiUpper (c : Z) : Z := if (97 <=? c) && (c <=? 122) then c - 32 else c.

Definition lowersAscii (toLowerCase : jsstring -> jsstring) : Prop :=
  forall s, forallb isAscii s = true -> toLowerCase s = map asciiLower s.

Definition raisesAscii (toUpperCase : jsstring -> jsstring) : Prop :=
  forall s, forallb isAscii s = true -> toUpperCase s = map asciiUpper s.

(** The pieces of a split put back together around the separator. *)
Fixpoint join (sep : Z) (pieces : list jsstring) : jsstring :=
  match pieces with
  | [] => []
  | [piece] => piece
  | piece :: pieces' => piece ++ sep :: join sep pieces'
  end.

(** [v?.toLowerCase() ?? ''] and [v ?? '']. *)
Definition lowerOrEmpty (toLowerCase : jsstring -> jsstring) (v : value) : jsstring :=
  match v with
  | str s => toLowerCase s
  | undefined | null => lit ""
  end.

Definition orEmpty (v : value) : jsstring :=
  match v with
  | str s => s
  | undefined | null => lit ""
  end.

End Strings.

Import Strings.

(* ================================================================== *)
(** * The board component: [ChessBoard] *)
(* ================================================================== *)

Module BoardView.

(** The glyph of each piece letter: U+2654 to U+2659 for the white king,
    queen, rook, bishop, knight and pawn, U+265A to U+265F for the black
    ones. *)
Definition PIECES : list (jsstring * jsstring) :=
  [ (lit "K", [9812]); (lit "Q", [9813]); (lit "R", [9814]);
    (lit "B", [9815]); (lit "N", [9816]); (lit "P", [9817]);
    (lit "k", [9818]); (lit "q", [9819]); (lit "r", [9820]);
    (lit "b", [9821]); (lit "n", [9822]); (lit "p", [9823]) ].

Definition FILES : list jsstring :=
  [lit "a"; lit "b"; lit "c"; lit "d"; lit "e"; lit "f"; lit "g"; lit "h"].
Definition RANKS : list jsstring :=
  [lit "8"; lit "7"; lit "6"; lit "5"; lit "4"; lit "3"; lit "2"; lit "1"].

(** [table[key]]: the value of the property, [None] for [undefined].  The
    keys read here are the cells of a decoded board, the empty string or
    one character, which name no inherited property of an object. *)
Fixpoint lookup (table : list (jsstring * jsstring)) (key : jsstring) : option jsstring :=
  match table with
  | [] => None
  | (k, v) :: table' => if str_eq key k then Some v else lookup table' key
  end.

(** A square as rendered: the class of its background, and the [<span>]
    of its piece, if any, with its class and its glyph.  The classes that
    depend on the [size] property only are left out. *)
Record SquareView : Type := {
  background : jsstring;
  child : option (jsstring * jsstring)
}.

(** The board as rendered: the rank labels, the rows of squares, the
    file labels.  The elements that only lay these out are left out. *)
Record View : Type := {
  rankLabels : list jsstring;
  rows : list (list SquareView);
  fileLabels : list jsstring
}.

Definition lightSquare : jsstring := lit "bg-[hsl(0_0%_25%)]".
Definition darkSquare : jsstring := lit "bg-[hsl(0_0%_15%)]".
Definition whitePiece : jsstring := lit "text-[hsl(0_0%_90%)]".
Definition blackPiece : jsstring := lit "text-[hsl(0_70%_55%)]".

Section WithCase.

Variable toUpperCase : jsstring -> jsstring.

(** [piece && PIECES[piece] ? <span className=...>{PIECES[piece]}</span> : null] *)
Definition pieceSpan (piece : jsstring) : option (jsstring * jsstring) :=
  match piece with
  | [] => None
  | _ :: _ =>
      match lookup PIECES piece with
      | Some glyph =>
          Some (if str_eq piece (toUpperCase piece) then whitePiece else blackPiece,
                glyph)
      | None => None
      end
  end.

(** The callback of [row.map]. *)
Definition renderSquare (rowIdx : nat) (piece : jsstring) (colIdx : nat) : SquareView :=
  let isLight := Nat.eqb ((rowIdx + colIdx) mod 2) 0 in
  {| background := if isLight then lightSquare else darkSquare;
     child := pieceSpan piece |}.

Definition ChessBoard (fen : value) : completion View :=
  board <- parseFEN fen ;;
  Normal {| rankLabels := RANKS;
            rows := mapi (fun row rowIdx => mapi (renderSquare rowIdx) 0 row) 0 board;
            fileLabels := FILES |}.

End WithCase.

(** The glyphs a row of squares shows, from left to right. *)
Definition glyphsOf (row : list SquareView) : list jsstring :=
  flat_map (fun square => match child square with
                          | Some (_, glyph) => [glyph]
                          | None => []
                          end) row.

(** The glyphs of the piece letters among the characters of a descriptor. *)
Definition piecesOf (row : jsstring) : list jsstring :=
  flat_map (fun char => match lookup PIECES char with
                        | Some glyph => [glyph]
                        | None => []
                        end) (codePoints row).

(** A descriptor of a well-formed placement expands to eight cells. *)
Definition fullRank (row : jsstring) : Prop := cellCount row = 8%nat.

(** The class a glyph is drawn with: the white pieces come first in the
    Unicode block, up to the white pawn U+2659. *)
Definition styleOfGlyph (glyph : jsstring) : jsstring :=
  match glyph with
  | [g] => if g <=? 9817 then whitePiece else blackPiece
  | _ => blackPiece
  end.

(** A cell that holds something. *)
Definition occupied (square : jsstring) : bool :=
  match square with
  | [] => false
  | _ :: _ => true
  end.

(** A character that is not a digit ['1'] to ['8']. *)
Definition literalChar (char : jsstring) : bool :=
  match digit18 char with
  | Some _ => false
  | None => true
  end.

End BoardView.

Import BoardView.

(* ================================================================== *)
(** * Classification helpers *)
(* ================================================================== *)

Module Labels.

Section WithCase.

Variable toLowerCase : jsstring -> jsstring.

Definition classificationColor (classification : value) : jsstring :=
  let c := lowerOrEmpty toLowerCase classification in
  if str_eq c (lit "excellent") || str_eq c (lit "excelente")
  then lit "bg-green-600 text-white"
  else if str_eq c (lit "good") || str_eq c (lit "boa") || str_eq c (lit "bom")
  then lit "bg-green-500/70 text-white"
  else if str_eq c (lit "inaccuracy") || str_eq c (lit "imprecisao")
  then lit "bg-yellow-600 text-white"
  else if str_eq c (lit "mistake") || str_eq c (lit "erro")
  then lit "bg-orange-600 text-white"
  else if str_eq c (lit "blunder") then lit "bg-red-600 text-white"
  else lit "bg-muted text-muted-foreground".

Definition classificationLabel (classification : value) : jsstring :=
  let c := lowerOrEmpty toLowerCase classification in
  if str_eq c (lit "excellent") then lit "Excelente"
  else if str_eq c (lit "good") then lit "Boa"
  else if str_eq c (lit "inaccuracy") then lit "Imprecisao"
  else if str_eq c (lit "mistake") then lit "Erro"
  else if str_eq c (lit "blunder") then lit "Blunder"
  else orEmpty classification.

Definition classificationSymbol (classification : value) : jsstring :=
  let c := lowerOrEmpty toLowerCase classification in
  if str_eq c (lit "excellent") || str_eq c (lit "excelente") then lit "!!"
  else if str_eq c (lit "good") || str_eq c (lit "boa") || str_eq c (lit "bom")
  then lit "!"
  else if str_eq c (lit "inaccuracy") || str_eq c (lit "imprecisao") then lit "?!"
  else if str_eq c (lit "mistake") || str_eq c (lit "erro") then lit "?"
  else if str_eq c (lit "blunder") then lit "??"
  else lit "".

Definition difficultyLabel (d : value) : jsstring :=
  let dl := lowerOrEmpty toLowerCase d in
  if str_eq dl (lit "beginner") then lit "Iniciante"
  else if str_eq dl (lit "intermediate") then lit "Intermediario"
  else if str_eq dl (lit "advanced") then lit "Avancado"
  else if str_eq dl (lit "master") then lit "Mestre"
  else orEmpty d.

End WithCase.

(** The style and the symbol of each grade, and of an unknown word. *)
Definition grades : list (jsstring * jsstring) :=
  [ (lit "bg-green-600 text-white", lit "!!");
    (lit "bg-green-500/70 text-white", lit "!");
    (lit "bg-yellow-600 text-white", lit "?!");
    (lit "bg-orange-600 text-white", lit "?");
    (lit "bg-red-600 text-white", lit "??");
    (lit "bg-muted text-muted-foreground", lit "") ].

(** The five English grade words with their label, style and symbol. *)
Definition english : list (jsstring * (jsstring * jsstring * jsstring)) :=
  [ (lit "excellent", (lit "Excelente", lit "bg-green-600 text-white", lit "!!"));
    (lit "good", (lit "Boa", lit "bg-green-500/70 text-white", lit "!"));
    (lit "inaccuracy", (lit "Imprecisao", lit "bg-yellow-600 text-white", lit "?!"));
    (lit "mistake", (lit "Erro", lit "bg-orange-600 text-white", lit "?"));
    (lit "blunder", (lit "Blunder", lit "bg-red-600 text-white", lit "??")) ].

(** The difficulty menu of the puzzle section: key and label. *)
Definition difficulties : list (jsstring * jsstring) :=
  [ (lit "beginner", lit "Iniciante"); (lit "intermediate", lit "Intermediario");
    (lit "advanced", lit "Avancado"); (lit "master", lit "Mestre") ].

(** Lower case by the ASCII table alone: an instance of [toLowerCase]
    for ASCII text. *)
Definition asciiLowerCase (s : jsstring) : jsstring := map asciiLower s.
Definition asciiUpperCase (s : jsstring) : jsstring := map asciiUpper s.

End Labels.

Import Labels.

(* ================================================================== *)
(** * The puzzle section: statistics and hints *)
(* ================================================================== *)

Module Puzzles.

Record PuzzleStats : Type := {
  streak : Z;
  total : Z;
  correct : Z
}.

(** [useState<PuzzleStats>({ streak: 0, total: 0, correct: 0 })] *)
Definition initialStats : PuzzleStats := {| streak := 0; total := 0; correct := 0 |}.

(** [n + 1] on a number that is an integer from 0 to 2^53: exact below
    2^53; at 2^53 the sum is not a double and rounds back to 2^53. *)
Definition maxExact : Z := 9007199254740992.
Definition plusOne (n : Z) : Z := if n <? maxExact then n + 1 else n.

(** The updater that [submitAnswer] passes to [setPuzzleStats]. *)
Definition updateStats (isCorrect : bool) (prev : PuzzleStats) : PuzzleStats :=
  {| streak := if isCorrect then plusOne (streak prev) else 0;
     total := plusOne (total prev);
     correct := if isCorrect then plusOne (correct prev) else correct prev |}.

(** The statistics after a run of answers, the first answer first. *)
Definition statsAfter (answers : list bool) : PuzzleStats :=
  fold_left (fun stats isCorrect => updateStats isCorrect stats) answers initialStats.

(** The number of correct answers at the end of a run. *)
Fixpoint runOfCorrect (recentFirst : list bool) : Z :=
  match recentFirst with
  | true :: older => 1 + runOfCorrect older
  | _ => 0
  end.

(** The counters stay ordered, and in the range where [+ 1] is exact or
    saturates. *)
Definition countersOrdered (stats : PuzzleStats) : Prop :=
  0 <= streak stats <= correct stats /\ correct stats <= total stats <= maxExact.

(** The hints of the puzzle on display: [displayPuzzle?.hints ?? []]. *)
Definition hintsOf (displayPuzzle : option (list jsstring)) : list jsstring :=
  match displayPuzzle with
  | Some hints => hints
  | None => []
  end.

(** [revealHint]: the next value of [hintsRevealed].  A click is handled
    with the counter of the latest render, the state it updates. *)
Definition revealHint (displayPuzzle : option (list jsstring)) (hintsRevealed : Z) : Z :=
  let hints := hintsOf displayPuzzle in
  if hintsRevealed <? Z.of_nat (length hints) then hintsRevealed + 1 else hintsRevealed.

(** The [disabled] attribute of the hint button. *)
Definition hintButtonDisabled (displayPuzzle : option (list jsstring))
           (hintsRevealed : Z) : bool :=
  match displayPuzzle with
  | None => true
  | Some hints => Z.of_nat (length hints) <=? hintsRevealed
  end.

(** [hints.slice(0, hintsRevealed)] for [0 <= hintsRevealed]: the hints
    on display. *)
Definition shownHints (displayPuzzle : option (list jsstring)) (hintsRevealed : Z)
  : list jsstring :=
  firstn (Z.to_nat hintsRevealed) (hintsOf displayPuzzle).

(** [hintsRevealed] after a number of clicks on the hint button. *)
Fixpoint afterClicks (displayPuzzle : option (list jsstring)) (clicks : nat)
         (hintsRevealed : Z) : Z :=
  match clicks with
  | O => hintsRevealed
  | S clicks' => afterClicks displayPuzzle clicks' (revealHint displayPuzzle hintsRevealed)
  end.

End Puzzles.

Import Puzzles.

(* ================================================================== *)
(** * The play section: the move list *)
(* ================================================================== *)

Module Play.

Section WithAnalysis.

(** The analysis an agent returned; its content plays no part here. *)
Variable ChessAnalysis : Type.

Inductive Color : Type := white | black | random.

(** The state of [JogarSection], one field per [useState]. *)
Record State : Type := {
  currentFen : jsstring;
  fenInput : jsstring;
  moveInput : jsstring;
  moveHistory : list jsstring;
  analysis : option ChessAnalysis;
  loading : bool;
  error : jsstring;
  selectedColor : Color;
  difficulty : jsstring;
  activeAgentId : option jsstring
}.

Definition initialState : State :=
  {| currentFen := INITIAL_FEN; fenInput := lit ""; moveInput := lit "";
     moveHistory := []; analysis := None; loading := false; error := lit "";
     selectedColor := white; difficulty := lit "10"; activeAgentId := None |}.

Definition handleNewGame (s : State) : State :=
  {| currentFen := INITIAL_FEN; fenInput := lit ""; moveInput := moveInput s;
     moveHistory := []; analysis := None; loading := loading s; error := lit "";
     selectedColor := selectedColor s; difficulty := difficulty s;
     activeAgentId := activeAgentId s |}.

Definition handleAddMove (s : State) : State :=
  if negb (ToBoolean (str (trim (moveInput s)))) then s
  else
    {| currentFen := currentFen s; fenInput := fenInput s; moveInput := lit "";
       moveHistory := moveHistory s ++ [trim (moveInput s)];
       analysis := analysis s; loading := loading s; error := error s;
       selectedColor := selectedColor s; difficulty := difficulty s;
       activeAgentId := activeAgentId s |}.

(** [onChange={(e) => setMoveInput(e.target.value)}] *)
Definition typeMove (text : jsstring) (s : State) : State :=
  {| currentFen := currentFen s; fenInput := fenInput s; moveInput := text;
     moveHistory := moveHistory s; analysis := analysis s; loading := loading s;
     error := error s; selectedColor := selectedColor s; difficulty := difficulty s;
     activeAgentId := activeAgentId s |}.

(** What the user does to the move list: type in the move box, press the
    button (or Enter in the box), start a new game.  Each event is handled
    with the state of the latest render.  The analysis of a position, which
    waits for the agent, writes neither the move box nor the move list. *)
Inductive Event : Type :=
| Typed (text : jsstring)
| AddMove
| NewGame.

Definition step (s : State) (e : Event) : State :=
  match e with
  | Typed text => typeMove text s
  | AddMove => handleAddMove s
  | NewGame => handleNewGame s
  end.

Definition run (events : list Event) : State := fold_left step events initialState.

End WithAnalysis.

Arguments moveInput {ChessAnalysis} s.
Arguments moveHistory {ChessAnalysis} s.

(** The move list as displayed: before each move of even index [i], the
    number [Math.floor(i / 2) + 1]; then the move. *)
Definition moveEntry (move : jsstring) (i : nat) : option nat * jsstring :=
  (if Nat.eqb (i mod 2) 0 then Some (i / 2 + 1)%nat else None, move).

Definition moveList (moveHistory : list jsstring) : list (option nat * jsstring) :=
  mapi moveEntry 0 moveHistory.

(** The numbers shown in a move list, in order. *)
Definition numbersOf (entries : list (option nat * jsstring)) : list nat :=
  flat_map (fun entry => match fst entry with Some n => [n] | None => [] end) entries.

(** A move as recorded: not empty, no white space at either end. *)
Definition trimmed (move : jsstring) : Prop := move <> [] /\ trim move = move.

(** The presses of the move button among the events since the last new
    game. *)
Fixpoint pressesSinceNewGame (recentFirst : list Event) : nat :=
  match recentFirst with
  | [] => 0
  | NewGame :: _ => 0
  | AddMove :: older => S (pressesSinceNewGame older)
  | Typed _ :: older => pressesSinceNewGame older
  end.

End Play.

Import Play.

(* ================================================================== *)
(** * Facts about the runtime *)
(* ================================================================== *)

(** Case analysis on every integer comparison of the goal. *)
Ltac zcases :=
  repeat match goal with
    | |- context [?a <? ?b] => destruct (Z.ltb_spec a b)
    | |- context [?a <=? ?b] => destruct (Z.leb_spec a b)
    | |- context [?a =? ?b] => destruct (Z.eqb_spec a b)
    end;
  cbn; try lia; try reflexivity; try discriminate.

Section Runtime.

Lemma codePoints_shape s : Forall isCodePoint (codePoints s).
Proof.
  assert (H : forall n s, (length s <= n)%nat -> Forall isCodePoint (codePoints s)).
  { induction n as [|n IH]; intros [|c t] Hlen; cbn [codePoints]; try constructor;
      cbn [length] in Hlen; try lia.
    destruct t as [|d t'].
    - constructor; [left; eauto | constructor].
    - destruct (isLeadSurrogate c && isTrailSurrogate d) eqn:Hp.
      + apply andb_prop in Hp as [Hc Hd]. constructor.
        * right. exists c, d. auto.
        * apply IH. cbn [length] in Hlen. lia.
      + constructor; [left; eauto|]. apply IH. lia. }
  apply (H (length s)). lia.
Qed.

Lemma split_nonempty sep s : split sep s <> [].
Proof.
  destruct s as [|c t]; cbn; [discriminate|].
  destruct (c =? sep); [discriminate|]. destruct (split sep t); discriminate.
Qed.

Lemma parseInt_digit d : 49 <= d <= 56 -> parseInt [d] = Some (d - 48).
Proof.
  intros Hd.
  assert (d = 49 \/ d = 50 \/ d = 51 \/ d = 52 \/ d = 53 \/ d = 54 \/ d = 55 \/ d = 56)
    as Hcases by lia.
  repeat (destruct Hcases as [-> | Hcases]; [reflexivity|]). subst d. reflexivity.
Qed.

(** The test [char >= '1' && char <= '8'] on a character. *)
Lemma digit_test char :
  isCodePoint char ->
  str_ge char (lit "1") && str_le char (lit "8") =
  match digit18 char with Some _ => true | None => false end.
Proof.
  intros [[c ->] | (c & d & -> & Hc & Hd)]; unfold str_ge, str_le; cbn.
  - zcases.
  - unfold isLeadSurrogate in Hc. apply andb_prop in Hc as [Hc _].
    apply Z.leb_le in Hc. zcases.
Qed.

End Runtime.

(* ================================================================== *)
(** * Facts about [parseFEN] *)
(* ================================================================== *)

Section Decoder.

Lemma pushEmpty_unfold char i squares :
  pushEmpty char i squares =
  if num_lt i (parseInt char)
  then pushEmpty char (i + 1) (squares ++ [emptySquare])
  else squares.
Proof.
  rewrite pushEmpty_equation_1.
  destruct (observe (num_lt i (parseInt char))) as [[] Hb];
    unfold pushEmpty_unfold_clause_1; cbv beta iota; rewrite Hb; reflexivity.
Qed.

Lemma padRank_unfold squares :
  padRank squares =
  if Nat.ltb (length squares) 8 then padRank (squares ++ [emptySquare]) else squares.
Proof.
  rewrite padRank_equation_1.
  destruct (observe (Nat.ltb (length squares) 8)) as [[] Hb];
    unfold padRank_unfold_clause_1; cbv beta iota; rewrite Hb; reflexivity.
Qed.

(** The counting loop pushes what is left of the count. *)
Lemma pushEmpty_repeat char n :
  parseInt char = Some n ->
  forall k i squares,
    Z.to_nat (n - i) = k ->
    pushEmpty char i squares = squares ++ repeat emptySquare k.
Proof.
  intros Hn. induction k as [|k IH]; intros i squares Hk;
    rewrite pushEmpty_unfold, Hn; cbn [num_lt].
  - destruct (Z.ltb_spec i n); [lia|]. cbn. now rewrite app_nil_r.
  - destruct (Z.ltb_spec i n); [|lia].
    rewrite (IH (i + 1) (squares ++ [emptySquare])) by lia.
    rewrite <- app_assoc. reflexivity.
Qed.

(** The padding loop pushes what is missing from eight cells. *)
Lemma padRank_repeat squares :
  padRank squares = squares ++ repeat emptySquare (8 - length squares).
Proof.
  remember (8 - length squares)%nat as k eqn:Hk. revert squares Hk.
  induction k as [|k IH]; intros squares Hk; rewrite padRank_unfold.
  - destruct (Nat.ltb_spec (length squares) 8); [lia|]. cbn. now rewrite app_nil_r.
  - destruct (Nat.ltb_spec (length squares) 8); [|lia].
    rewrite (IH (squares ++ [emptySquare])).
    + rewrite <- app_assoc. reflexivity.
    + rewrite length_app. cbn [length]. lia.
Qed.

Lemma scanChar_cells squares char :
  isCodePoint char -> scanChar squares char = squares ++ cellsOf char.
Proof.
  intros Hchar. unfold scanChar, cellsOf. rewrite (digit_test char Hchar).
  destruct (digit18 char) as [n|] eqn:Hd; [|reflexivity].
  unfold digit18 in Hd. destruct char as [|d [|? ?]]; try discriminate.
  destruct ((49 <=? d) && (d <=? 56)) eqn:Hr; [|discriminate].
  injection Hd as <-. apply andb_prop in Hr as [H1 H2].
  apply Z.leb_le in H1, H2.
  apply (pushEmpty_repeat [d] (d - 48)); [apply parseInt_digit; lia | f_equal; lia].
Qed.

Lemma scan_cells chars squares :
  Forall isCodePoint chars ->
  fold_left scanChar chars squares = squares ++ flat_map cellsOf chars.
Proof.
  intros H. revert squares. induction H as [|char chars Hc _ IH]; intros squares; cbn.
  - now rewrite app_nil_r.
  - rewrite (scanChar_cells _ _ Hc), IH, <- app_assoc. reflexivity.
Qed.

Lemma cells_length chars :
  length (flat_map cellsOf chars) =
  list_sum (map (fun char => match digit18 char with Some n => n | None => 1%nat end)
                chars).
Proof.
  induction chars as [|char chars IH]; [reflexivity|].
  cbn [flat_map map list_sum fold_right]. rewrite length_app, IH.
  fold (list_sum (map (fun char => match digit18 char with Some n => n | None => 1%nat end)
                      chars)).
  f_equal. unfold cellsOf. destruct (digit18 char); [apply repeat_length | reflexivity].
Qed.

(** A decoded rank: the cells of its characters, then the padding. *)
Lemma decodeRow_cells row :
  decodeRow row =
  flat_map cellsOf (codePoints row) ++ repeat emptySquare (8 - cellCount row).
Proof.
  unfold decodeRow, cellCount.
  rewrite (scan_cells _ _ (codePoints_shape row)). cbn [app].
  rewrite padRank_repeat, cells_length. reflexivity.
Qed.

Lemma decodeRow_width row : length (decodeRow row) = Nat.max 8 (cellCount row).
Proof.
  pose proof (cells_length (codePoints row)) as Hlen. fold (cellCount row) in Hlen.
  rewrite decodeRow_cells, length_app, repeat_length, Hlen. lia.
Qed.

(** [fen.split(' ')[0]] is the text before the first space. *)
Lemma split_first s : nth_error (split 32 s) 0 = Some (beforeSpace s).
Proof.
  induction s as [|c t IH]; cbn [split beforeSpace]; [reflexivity|].
  destruct (c =? 32); [reflexivity|].
  destruct (split 32 t) as [|piece pieces]; [discriminate|].
  cbn in *. congruence.
Qed.

Lemma beforeSpace_idem s : beforeSpace (beforeSpace s) = beforeSpace s.
Proof.
  induction s as [|c t IH]; cbn; [reflexivity|].
  destruct (c =? 32) eqn:Hc; cbn; [reflexivity|]. now rewrite Hc, IH.
Qed.

(** On a non-empty string the decoder maps the row decoder over the
    descriptors of the piece-placement field. *)
Lemma parseFEN_rows fen :
  fen <> [] ->
  parseFEN (str fen) = Normal (map decodeRow (split 47 (beforeSpace fen))).
Proof.
  intros Hne. destruct fen as [|c t]; [congruence|].
  unfold parseFEN. cbn [ToBoolean negb call_split bind].
  rewrite split_first. reflexivity.
Qed.

End Decoder.

(* ================================================================== *)
(** * The decoder: claims *)
(* ================================================================== *)

(** C2.  Scanning a rank descriptor character by character, left to
    right: a digit ['1'] to ['8'] contributes that many empty cells, any
    other character one cell holding that character; the decoded rank is
    these cells in order, followed by the padding. *)
Theorem decodeRow_expands (row : jsstring) :
  fold_left scanChar (codePoints row) [] = flat_map cellsOf (codePoints row) /\
  exists padding,
    decodeRow row = flat_map cellsOf (codePoints row) ++ padding /\
    Forall (eq emptySquare) padding.
Proof.
  split.
  - now rewrite (scan_cells _ _ (codePoints_shape row)).
  - eexists. split; [apply decodeRow_cells|].
    apply Forall_forall. intros x Hx. now apply repeat_spec in Hx.
Qed.

(** C10.  The length of a decoded rank is the maximum of 8 and the
    expanded cell count of its descriptor; a descriptor expanding to more
    than 8 cells is emitted in full, with no truncation. *)
Theorem decodeRow_length (row : jsstring) :
  length (decodeRow row) = Nat.max 8 (cellCount row) /\
  ((8 < cellCount row)%nat -> decodeRow row = flat_map cellsOf (codePoints row)).
Proof.
  split; [apply decodeRow_width|].
  intros Hlong. rewrite decodeRow_cells.
  replace (8 - cellCount row)%nat with 0%nat by lia.
  cbn. now rewrite app_nil_r.
Qed.

(** The over-long descriptor of nine pieces. *)
Lemma decodeRow_length_witness :
  length (decodeRow (lit "rnbqkbnrr")) = Nat.max 8 (cellCount (lit "rnbqkbnrr")) /\
  decodeRow (lit "rnbqkbnrr") = flat_map cellsOf (codePoints (lit "rnbqkbnrr")).
Proof.
  split.
  - exact (proj1 (decodeRow_length (lit "rnbqkbnrr"))).
  - apply (proj2 (decodeRow_length (lit "rnbqkbnrr"))). vm_compute. lia.
Defined.

(** C1, as stated, fails: a descriptor of nine pieces decodes to a rank
    of nine cells. *)
Lemma parseFEN_nine_cells :
  exists board,
    parseFEN (str (lit "rnbqkbnrr")) = Normal board /\
    board = [[lit "r"; lit "n"; lit "b"; lit "q"; lit "k"; lit "b"; lit "n";
              lit "r"; lit "r"]] /\
    ~ Forall (fun rank : Rank => length rank = 8%nat) board.
Proof.
  eexists. split; [vm_compute; reflexivity|]. split; [reflexivity|].
  intros H. inversion H as [|rank ranks Hlen _]. discriminate Hlen.
Qed.

(** C1, amended.  For every non-empty input the board has one rank per
    ['/']-separated descriptor of the piece-placement field; every rank
    has at least 8 cells, and exactly 8 when its descriptor expands to at
    most 8 cells, the cells of the descriptor being followed by empty
    cells up to 8. *)
Theorem parseFEN_ranks (fen : jsstring) :
  fen <> [] ->
  exists board,
    parseFEN (str fen) = Normal board /\
    length board = length (split 47 (beforeSpace fen)) /\
    Forall2 (fun row rank =>
               (8 <= length rank)%nat /\
               ((cellCount row <= 8)%nat ->
                length rank = 8%nat /\
                rank = flat_map cellsOf (codePoints row)
                         ++ repeat emptySquare (8 - cellCount row)))
            (split 47 (beforeSpace fen)) board.
Proof.
  intros Hne. exists (map decodeRow (split 47 (beforeSpace fen))).
  split; [now apply parseFEN_rows|]. split; [apply length_map|].
  induction (split 47 (beforeSpace fen)) as [|row rows IH]; cbn [map]; constructor.
  - pose proof (decodeRow_width row) as Hlen. split; [lia|].
    intros Hshort. split; [lia | apply decodeRow_cells].
  - exact IH.
Qed.

(** Two ranks, one of them padded, and a side to move. *)
Lemma parseFEN_ranks_witness :
  exists board,
    parseFEN (str (lit "4k3/8 w")) = Normal board /\
    length board = length (split 47 (beforeSpace (lit "4k3/8 w"))) /\
    Forall2 (fun row rank =>
               (8 <= length rank)%nat /\
               ((cellCount row <= 8)%nat ->
                length rank = 8%nat /\
                rank = flat_map cellsOf (codePoints row)
                         ++ repeat emptySquare (8 - cellCount row)))
            (split 47 (beforeSpace (lit "4k3/8 w"))) board.
Proof.
  apply (parseFEN_ranks (lit "4k3/8 w")). vm_compute. discriminate.
Defined.

(** C5, as stated, fails on an input that starts with a space: the text
    before the first space is empty, and the empty string decodes to the
    default board of 8 ranks, while the input itself decodes to a single
    rank. *)
Lemma parseFEN_leading_space :
  parseFEN (str (lit " w")) = Normal [repeat emptySquare 8] /\
  parseFEN (str (beforeSpace (lit " w"))) = Normal emptyBoard /\
  parseFEN (str (lit " w")) <> parseFEN (str (beforeSpace (lit " w"))).
Proof.
  split; [vm_compute; reflexivity|]. split; [vm_compute; reflexivity|].
  vm_compute. discriminate.
Qed.

(** C5, amended.  For every non-empty input, the board depends on the
    text before the first space only: two non-empty inputs that agree
    before their first space decode to the same board, and the input
    decodes like that text alone whenever that text is not empty. *)
Theorem parseFEN_placement_only (fen : jsstring) :
  fen <> [] ->
  (forall fen', fen' <> [] -> beforeSpace fen' = beforeSpace fen ->
                parseFEN (str fen') = parseFEN (str fen)) /\
  (beforeSpace fen <> [] -> parseFEN (str fen) = parseFEN (str (beforeSpace fen))).
Proof.
  intros Hne. split.
  - intros fen' Hne' Hsame. rewrite !parseFEN_rows by assumption. now rewrite Hsame.
  - intros Hfield. rewrite !parseFEN_rows by assumption.
    now rewrite beforeSpace_idem.
Qed.

(** Two inputs that differ after the first space only. *)
Lemma parseFEN_placement_only_witness :
  parseFEN (str (lit "8/8 b - - 3 9")) = parseFEN (str (lit "8/8 w")) /\
  parseFEN (str (lit "8/8 w")) = parseFEN (str (beforeSpace (lit "8/8 w"))).
Proof.
  destruct (parseFEN_placement_only (lit "8/8 w")) as [Hsame Hfield];
    [vm_compute; discriminate|].
  split.
  - apply Hsame; [vm_compute; discriminate | vm_compute; reflexivity].
  - apply Hfield. vm_compute. discriminate.
Defined.

(** C6.  The empty string and an absent input ([undefined], [null])
    decode to the default board: 8 ranks of 8 empty cells, returned
    normally. *)
Theorem parseFEN_absent :
  parseFEN (str (lit "")) = Normal emptyBoard /\
  parseFEN undefined = Normal emptyBoard /\
  parseFEN null = Normal emptyBoard /\
  length emptyBoard = 8%nat /\
  Forall (fun rank : Rank => length rank = 8%nat /\ Forall (eq emptySquare) rank)
         emptyBoard.
Proof.
  repeat split; try reflexivity.
  unfold emptyBoard. apply Forall_forall. intros rank Hrank.
  apply repeat_spec in Hrank. subst rank. split; [reflexivity|].
  apply Forall_forall. intros sq Hsq. now apply repeat_spec in Hsq.
Qed.

(** C7, as stated, fails on the count of empty ranks: the starting
    position has four fully-empty ranks between the pawn ranks, not two. *)
Lemma initial_position_four_empty_ranks :
  exists board,
    parseFEN (str INITIAL_FEN) = Normal board /\
    nth_error board 1 = Some (repeat (lit "p") 8) /\
    nth_error board 6 = Some (repeat (lit "P") 8) /\
    length (filter isEmptyRank (ranksBetween 1 6 board)) = 4%nat /\
    length (filter isEmptyRank (ranksBetween 1 6 board)) <> 2%nat.
Proof.
  eexists. split; [vm_compute; reflexivity|].
  repeat split; try reflexivity. discriminate.
Qed.

(** C7, amended.  Decoding the starting position gives 8 ranks: the
    first is [r,n,b,q,k,b,n,r], the last is [R,N,B,Q,K,B,N,R], the second
    and the seventh are the pawn ranks, and the four ranks between the
    pawn ranks are fully empty. *)
Theorem parseFEN_initial :
  parseFEN (str INITIAL_FEN) =
  Normal [ [lit "r"; lit "n"; lit "b"; lit "q"; lit "k"; lit "b"; lit "n"; lit "r"];
           repeat (lit "p") 8;
           repeat emptySquare 8;
           repeat emptySquare 8;
           repeat emptySquare 8;
           repeat emptySquare 8;
           repeat (lit "P") 8;
           [lit "R"; lit "N"; lit "B"; lit "Q"; lit "K"; lit "B"; lit "N"; lit "R"] ].
Proof. vm_compute. reflexivity. Qed.

(* ================================================================== *)
(** * Facts about [formatInline] *)
(* ================================================================== *)

Section InlinePass.

Lemma startsWith_prefix line prefix :
  startsWith line prefix = true <-> hasPrefix prefix line.
Proof.
  revert line. induction prefix as [|q prefix IH]; intros line; cbn.
  - split; [intros _; now exists line | reflexivity].
  - destruct line as [|c line]; cbn.
    + split; [discriminate | intros [rest H]; discriminate H].
    + rewrite andb_true_iff, Z.eqb_eq, IH. split.
      * intros [-> [rest ->]]. now exists rest.
      * intros [rest [= -> ->]]. split; [reflexivity | now exists rest].
Qed.

Lemma startsWith_app prefix rest : startsWith (prefix ++ rest) prefix = true.
Proof. apply startsWith_prefix. now exists rest. Qed.

Lemma slice_app prefix rest : slice (prefix ++ rest) (length prefix) = rest.
Proof.
  unfold slice. rewrite skipn_app, skipn_all, Nat.sub_diag. reflexivity.
Qed.

(** What the lazy group and the closing marker consume. *)
Lemma lazyGroup_consumed s captured rest :
  lazyGroup s = Some (captured, rest) ->
  s = captured ++ lit "**" ++ rest /\ boldContent captured.
Proof.
  revert captured rest.
  induction s as [|c t IH]; intros captured rest; [discriminate|].
  cbn [lazyGroup]. destruct (startsWith (c :: t) (lit "**")) eqn:Hs.
  - apply startsWith_prefix in Hs as [tail Htail].
    rewrite Htail. change 2%nat with (length (lit "**")). rewrite slice_app.
    intros [= <- <-]. repeat split; [constructor|].
    intros [|x before] after H; discriminate H.
  - destruct (isLineTerminator c) eqn:Hc; [discriminate|].
    destruct (lazyGroup t) as [[cap r]|] eqn:Hg; [|discriminate].
    intros [= <- <-]. destruct (IH _ _ eq_refl) as (Ht & Hlt & Hstars).
    repeat split.
    + cbn [app]. now rewrite <- Ht.
    + now constructor.
    + intros [|x before] after H.
      * assert (startsWith (c :: t) (lit "**") = true) as Hyes; [|congruence].
        rewrite Ht. cbn [app] in H. injection H as -> ->. reflexivity.
      * cbn [app] in H. injection H as _ H. exact (Hstars _ _ H).
Qed.

Lemma matchBold_consumed s captured rest :
  matchBold s = Some (captured, rest) ->
  s = lit "**" ++ captured ++ lit "**" ++ rest /\ boldContent captured.
Proof.
  unfold matchBold. destruct (startsWith s (lit "**")) eqn:Hs; [|discriminate].
  apply startsWith_prefix in Hs as [tail ->].
  change 2%nat with (length (lit "**")). rewrite slice_app.
  intros H. apply lazyGroup_consumed in H as [-> Hb]. now split.
Qed.

Lemma splitBold_nil piece : splitBold piece [] = [piece].
Proof. now rewrite splitBold_equation_1. Qed.

Lemma splitBold_cons piece c t :
  splitBold piece (c :: t) =
  match matchBold (c :: t) with
  | Some (captured, rest) => piece :: captured :: splitBold [] rest
  | None => splitBold (piece ++ [c]) t
  end.
Proof.
  rewrite splitBold_equation_2.
  destruct (observe (matchBold (c :: t))) as [[[cap rest]|] Hb];
    unfold splitBold_unfold_clause_2; cbv beta iota; rewrite Hb; reflexivity.
Qed.

Lemma spanAt_parity i part captured :
  Nat.even i = true ->
  spanAt part i = Fragment part /\ spanAt captured (S i) = strong captured /\
  Nat.even (S (S i)) = true.
Proof.
  intros Hi. apply Nat.even_spec in Hi as [k ->]. unfold spanAt.
  replace (2 * k)%nat with (k * 2)%nat by lia.
  rewrite Nat.Div0.mod_mul.
  replace (S (k * 2)) with (1 + k * 2)%nat by lia.
  rewrite Nat.Div0.mod_add. repeat split.
  apply Nat.even_spec. exists (S k). lia.
Qed.

(** The spans of a split, read back with their markers, are the text;
    they alternate, and the bold ones are well formed. *)
Lemma splitBold_spans s :
  forall piece i,
    Nat.even i = true ->
    let spans := mapi spanAt i (splitBold piece s) in
    flat_map sourceOf spans = piece ++ s /\
    alternates spans = true /\
    Forall wellFormedSpan spans.
Proof.
  assert (H : forall n s, (length s <= n)%nat ->
              forall piece i, Nat.even i = true ->
                let spans := mapi spanAt i (splitBold piece s) in
                flat_map sourceOf spans = piece ++ s /\
                alternates spans = true /\ Forall wellFormedSpan spans).
  { induction n as [|n IH]; intros [|c t] Hlen piece i Hi; cbn [length] in Hlen;
      try lia.
    1,2: rewrite splitBold_nil; cbn [mapi];
         destruct (spanAt_parity i piece piece Hi) as (-> & _ & _);
         cbn [flat_map sourceOf alternates];
         split; [reflexivity | split; [reflexivity | constructor; [exact I | constructor]]].
    rewrite splitBold_cons.
    destruct (matchBold (c :: t)) as [[captured rest]|] eqn:Hm.
    - pose proof (matchBold_consumed _ _ _ Hm) as [Hs Hbold].
      cbn [mapi].
      destruct (spanAt_parity i piece captured Hi) as (-> & -> & Hi').
      assert (Hshort : (length rest <= n)%nat).
      { apply (f_equal (@length Z)) in Hs. rewrite !length_app in Hs.
        cbn [length lit] in Hs. cbn in Hs. lia. }
      destruct (IH rest Hshort [] _ Hi') as (Hsrc & Halt & Hwf).
      repeat split.
      + cbn [flat_map sourceOf]. rewrite Hsrc, Hs. cbn [app].
        rewrite <- !app_assoc. reflexivity.
      + exact Halt.
      + constructor; [exact I|]. constructor; [exact Hbold | exact Hwf].
    - destruct (IH t ltac:(lia) (piece ++ [c]) i Hi) as (Hsrc & Halt & Hwf).
      repeat split; try assumption. rewrite Hsrc, <- app_assoc. reflexivity. }
  intros piece i Hi. apply (H (length s) s); [lia | exact Hi].
Qed.

(** Whether it returns the text or an array, [formatInline] gives the
    spans of the split. *)
Lemma formatInline_spans text :
  spansOf (formatInline text) = mapi spanAt 0 (splitBold [] text).
Proof.
  unfold formatInline.
  destruct (splitBold_spans text [] 0 eq_refl) as (Hsrc & _ & _).
  destruct (splitBold [] text) as [|part [|part' parts]] eqn:Hparts;
    cbn [length Nat.eqb spansOf]; try reflexivity.
  cbn in Hsrc. rewrite app_nil_r in Hsrc. subst part. reflexivity.
Qed.

(** Where the expression matches nowhere, the split is the text itself. *)
Lemma splitBold_no_match s :
  (forall before after, s = before ++ after -> matchBold after = None) ->
  forall piece, splitBold piece s = [piece ++ s].
Proof.
  induction s as [|c t IH]; intros Hnone piece.
  - now rewrite splitBold_nil, app_nil_r.
  - rewrite splitBold_cons, (Hnone [] (c :: t) eq_refl), IH.
    + now rewrite <- app_assoc.
    + intros before after ->. apply (Hnone (c :: before) after). reflexivity.
Qed.

Lemma lazyGroup_no_asterisk s :
  Forall (fun c => c <> 42) s -> lazyGroup s = None.
Proof.
  induction 1 as [|c t Hc _ IH]; [reflexivity|].
  cbn [lazyGroup]. replace (startsWith (c :: t) (lit "**")) with false.
  - rewrite IH. now destruct (isLineTerminator c).
  - cbn. destruct (Z.eqb_spec c 42); [contradiction | reflexivity].
Qed.

(** A single marker with no other asterisk around it is matched nowhere. *)
Lemma lone_marker_no_match left right :
  Forall (fun c => c <> 42) left -> Forall (fun c => c <> 42) right ->
  forall before after,
    left ++ lit "**" ++ right = before ++ after -> matchBold after = None.
Proof.
  intros Hl Hr before after Heq.
  assert (Hno : forall a, Forall (fun c => c <> 42) a -> forall b, matchBold (a ++ b) = None
                          \/ a = []).
  { intros [|x a] Ha b; [now right | left]. inversion Ha as [|? ? Hx _]; subst.
    unfold matchBold. cbn. destruct (Z.eqb_spec x 42); [contradiction | reflexivity]. }
  revert before Heq. induction Hl as [|x left Hx Hl IH]; intros before Heq.
  - cbn [app] in Heq. destruct before as [|b1 [|b2 before]]; cbn [app] in Heq.
    + subst after. unfold matchBold. cbn.
      now rewrite (lazyGroup_no_asterisk right Hr).
    + injection Heq as _ <-. unfold matchBold.
      destruct Hr as [|y right Hy Hr]; cbn; [reflexivity|].
      destruct (Z.eqb_spec y 42); [contradiction | reflexivity].
    + injection Heq as _ _ Heq.
      assert (Hafter : Forall (fun c => c <> 42) after).
      { rewrite Heq in Hr. now apply Forall_app in Hr as [_ Hr]. }
      destruct (Hno after Hafter []) as [H | ->]; [now rewrite app_nil_r in H|].
      reflexivity.
  - destruct before as [|b before]; cbn [app] in Heq.
    + subst after. unfold matchBold. cbn.
      destruct (Z.eqb_spec x 42); [contradiction | reflexivity].
    + injection Heq as _ Heq. exact (IH before Heq).
Qed.

End InlinePass.

(* ================================================================== *)
(** * Facts about [renderMarkdown] *)
(* ================================================================== *)

Section Lines.

Lemma skipDigits_digits digits rest :
  Forall (fun c => isDigit c = true) digits ->
  match rest with c :: _ => isDigit c = false | [] => True end ->
  skipDigits (digits ++ rest) = rest.
Proof.
  intros Hd Hrest. induction Hd as [|d digits Hd _ IH]; cbn [app skipDigits].
  - destruct rest as [|c rest]; cbn [skipDigits]; [reflexivity | now rewrite Hrest].
  - now rewrite Hd.
Qed.

Lemma skipDigits_split s :
  exists digits,
    Forall (fun c => isDigit c = true) digits /\ s = digits ++ skipDigits s.
Proof.
  induction s as [|c t (digits & Hd & Ht)]; [now exists []|].
  cbn [skipDigits]. destruct (isDigit c) eqn:Hc.
  - exists (c :: digits). split; [now constructor|]. cbn [app]. now rewrite <- Ht.
  - now exists [].
Qed.

(** The expression [/^\d+\.\s/] matches the numbered lines. *)
Lemma matchOrdered_numbered line content :
  matchOrdered line = Some content <-> numbered isSpace line content.
Proof.
  split.
  - destruct line as [|c t]; [discriminate|]. cbn [matchOrdered].
    destruct (isDigit c) eqn:Hc; [|discriminate].
    destruct (skipDigits_split t) as (digits & Hd & Ht).
    destruct (skipDigits t) as [|dot [|w rest]]; try discriminate.
    destruct (Z.eqb_spec dot 46) as [->|]; [|discriminate].
    destruct (isSpace w) eqn:Hw; [|discriminate].
    intros [= <-]. exists (c :: digits), w.
    repeat split; [discriminate | now constructor | exact Hw |].
    cbn [app]. now rewrite <- Ht.
  - intros (digits & w & Hne & Hd & Hw & ->).
    destruct digits as [|c digits]; [congruence|].
    inversion Hd as [|? ? Hc Hd']; subst. cbn [app matchOrdered].
    rewrite Hc, (skipDigits_digits digits (46 :: w :: content) Hd' eq_refl).
    cbn. now rewrite Hw.
Qed.

Lemma trimStart_nil s : trimStart s = [] <-> blank s.
Proof.
  unfold blank. induction s as [|c t IH]; cbn [trimStart].
  - split; [constructor | reflexivity].
  - destruct (isSpace c) eqn:Hc.
    + rewrite IH. split; [now constructor | now inversion 1].
    + split; [discriminate | inversion 1; congruence].
Qed.

Lemma trimStart_fixed s : trimStart (trimStart s) = trimStart s.
Proof.
  induction s as [|c t IH]; cbn [trimStart]; [reflexivity|].
  destruct (isSpace c) eqn:Hc; [exact IH | cbn [trimStart]; now rewrite Hc].
Qed.

(** [!line.trim()] holds of the blank lines. *)
Lemma trim_blank line : trim line = [] <-> blank line.
Proof.
  unfold trim. split.
  - intros H. apply (f_equal (@rev Z)) in H. rewrite rev_involutive in H. cbn in H.
    apply trimStart_nil in H. unfold blank in H. apply Forall_rev in H.
    rewrite rev_involutive in H. apply trimStart_nil in H.
    rewrite trimStart_fixed in H. now apply trimStart_nil.
  - intros H. apply trimStart_nil in H. rewrite H. reflexivity.
Qed.

(** A line that starts with a digit or with white space starts with no
    marker. *)
Lemma no_marker c t :
  isDigit c = true \/ isSpace c = true ->
  Forall (fun marker => startsWith (c :: t) marker = false) markers.
Proof.
  intros Hc.
  assert (c <> 35 /\ c <> 45 /\ c <> 42) as (H1 & H2 & H3).
  { repeat split; intros ->; destruct Hc as [Hc | Hc]; discriminate Hc. }
  repeat constructor; cbn; zcases.
Qed.

Lemma renderLine_numbered line content :
  numbered isSpace line content ->
  renderLine line = li_decimal (formatInline content).
Proof.
  intros Hnum. pose proof (proj2 (matchOrdered_numbered _ _) Hnum) as Hm.
  destruct Hnum as (digits & w & Hne & Hd & _ & ->).
  destruct digits as [|c digits]; [congruence|]. inversion Hd as [|? ? Hc _]; subst.
  pose proof (no_marker c (digits ++ 46 :: w :: content) (or_introl Hc)) as Hno.
  unfold markers in Hno. repeat (apply Forall_cons_iff in Hno as [? Hno]).
  cbn [app] in *. unfold renderLine, testOrdered, replaceOrdered.
  repeat match goal with H : startsWith _ _ = false |- _ => rewrite H; clear H end.
  cbn [orb]. now rewrite Hm.
Qed.

Lemma renderLine_blank line : blank line -> renderLine line = div_gap.
Proof.
  intros Hblank. pose proof (proj2 (trim_blank line) Hblank) as Htrim.
  destruct Hblank as [|c t Hc _]; [reflexivity|].
  pose proof (no_marker c t (or_intror Hc)) as Hno.
  unfold markers in Hno. repeat (apply Forall_cons_iff in Hno as [? Hno]).
  assert (isDigit c = false) as Hd.
  { unfold isDigit. destruct (Z.leb_spec 48 c), (Z.leb_spec c 57); try reflexivity.
    assert (c = 48 \/ c = 49 \/ c = 50 \/ c = 51 \/ c = 52 \/ c = 53 \/ c = 54
            \/ c = 55 \/ c = 56 \/ c = 57) as Hcases by lia.
    repeat (destruct Hcases as [-> | Hcases]; [discriminate Hc|]).
    subst c. discriminate Hc. }
  unfold renderLine, testOrdered.
  repeat match goal with H : startsWith _ _ = false |- _ => rewrite H; clear H end.
  cbn [orb matchOrdered]. rewrite Hd, Htrim. reflexivity.
Qed.

Lemma renderLine_paragraph line :
  startsWith line (lit "### ") = false -> startsWith line (lit "## ") = false ->
  startsWith line (lit "# ") = false ->
  startsWith line (lit "- ") = false -> startsWith line (lit "* ") = false ->
  matchOrdered line = None -> trim line <> [] ->
  renderLine line = p (formatInline line).
Proof.
  intros H1 H2 H3 H4 H5 Hm Ht. unfold renderLine, testOrdered.
  rewrite H1, H2, H3, H4, H5, Hm. cbn [orb].
  destruct (trim line); [congruence | reflexivity].
Qed.

(** The element of a line is the one the rules give, and the only one. *)
Lemma renderLine_classified line :
  Classified isSpace line (renderLine line) /\
  forall block, Classified isSpace line block -> block = renderLine line.
Proof.
  split.
  - destruct (startsWith line (lit "### ")) eqn:H1.
    { apply startsWith_prefix in H1 as [rest ->]. now apply heading3. }
    destruct (startsWith line (lit "## ")) eqn:H2.
    { apply startsWith_prefix in H2 as [rest ->]. now apply heading2. }
    destruct (startsWith line (lit "# ")) eqn:H3.
    { apply startsWith_prefix in H3 as [rest ->]. now apply heading1. }
    destruct (startsWith line (lit "- ")) eqn:H4.
    { apply startsWith_prefix in H4 as [rest ->].
      apply (unordered isSpace _ rest). now left. }
    destruct (startsWith line (lit "* ")) eqn:H5.
    { apply startsWith_prefix in H5 as [rest ->].
      apply (unordered isSpace _ rest). now right. }
    destruct (matchOrdered line) as [content|] eqn:Hm.
    { apply matchOrdered_numbered in Hm.
      rewrite (renderLine_numbered _ _ Hm). now apply ordered. }
    destruct (trim line) as [|c t] eqn:Ht.
    { apply trim_blank in Ht. rewrite (renderLine_blank _ Ht). now apply blankLine. }
    rewrite renderLine_paragraph by (assumption || congruence).
    apply paragraph;
      try (intros Hp; apply startsWith_prefix in Hp; congruence).
    + intros content Hnum. apply matchOrdered_numbered in Hnum. congruence.
    + intros Hb. apply trim_blank in Hb. congruence.
  - intros block Hrule.
    destruct Hrule as [rest -> | rest -> | rest -> | rest [-> | ->] | content Hnum
                      | Hblank | N1 N2 N3 N4 N5 Nnum Nblank];
      try reflexivity.
    + symmetry. now apply renderLine_numbered.
    + symmetry. now apply renderLine_blank.
    + symmetry. apply renderLine_paragraph.
      1-5: match goal with |- ?b = false =>
             destruct b eqn:Hb; [apply startsWith_prefix in Hb; contradiction | reflexivity]
           end.
      * destruct (matchOrdered line) as [content|] eqn:Hm; [|reflexivity].
        apply matchOrdered_numbered in Hm. now apply Nnum in Hm.
      * intros Ht. now apply trim_blank in Ht.
Qed.

End Lines.

(* ================================================================== *)
(** * The inline pass finds every pair *)
(* ================================================================== *)

Section Pairs.

(** The lazy group stops at the nearest closing marker. *)
Lemma lazyGroup_nearest s captured rest :
  lazyGroup s = Some (captured, rest) -> nearest captured.
Proof.
  revert captured rest.
  induction s as [|c t IH]; intros captured rest; [discriminate|].
  cbn [lazyGroup]. destruct (startsWith (c :: t) (lit "**")) eqn:Hs.
  - intros [= <- _] before after H. apply (f_equal (@length Z)) in H.
    rewrite !length_app in H. cbn in H. lia.
  - destruct (isLineTerminator c); [discriminate|].
    destruct (lazyGroup t) as [[cap r]|] eqn:Hg; [|discriminate].
    intros [= <- <-]. pose proof (IH _ _ eq_refl) as Hnear.
    apply lazyGroup_consumed in Hg as [Ht _].
    intros [|x before] after H; cbn [app] in H.
    + assert (startsWith (c :: t) (lit "**") = true) as Hyes; [|congruence].
      injection H as -> H. rewrite Ht.
      destruct cap as [|y cap]; cbn [app] in H |- *.
      * reflexivity.
      * injection H as -> _. reflexivity.
    + injection H as _ H. exact (Hnear _ _ H).
Qed.

(** Where a closing marker follows with no line terminator before it,
    the lazy group finds one. *)
Lemma lazyGroup_finds content rest :
  Forall (fun c => isLineTerminator c = false) content ->
  lazyGroup (content ++ lit "**" ++ rest) <> None.
Proof.
  induction 1 as [|c content Hc _ IH].
  - cbn. discriminate.
  - cbn [app lazyGroup].
    destruct (startsWith (c :: content ++ lit "**" ++ rest) (lit "**")); [discriminate|].
    rewrite Hc. destruct (lazyGroup (content ++ lit "**" ++ rest)) as [[cap r]|];
      [discriminate | contradiction].
Qed.

(** The expression matches exactly where a pair starts. *)
Lemma matchBold_pairAt s : matchBold s <> None <-> pairAt s.
Proof.
  split.
  - destruct (matchBold s) as [[captured rest]|] eqn:Hm; [|congruence]. intros _.
    apply matchBold_consumed in Hm as [-> [Hlt _]]. now exists captured, rest.
  - intros (content & rest & -> & Hlt). unfold matchBold.
    rewrite startsWith_app. change 2%nat with (length (lit "**")). rewrite slice_app.
    now apply lazyGroup_finds.
Qed.

Lemma noPairIn_nil rest : noPairIn [] rest.
Proof.
  intros before after H Hne. symmetry in H. apply app_eq_nil in H as [_ ->].
  congruence.
Qed.

(** Scanning one code unit further where the expression does not match. *)
Lemma noPairIn_snoc piece c t :
  noPairIn piece (c :: t) -> matchBold (c :: t) = None -> noPairIn (piece ++ [c]) t.
Proof.
  intros Hpiece Hnone before after Heq Hne Hpair.
  destruct (exists_last Hne) as (after' & x & ->).
  rewrite app_assoc in Heq. apply app_inj_tail in Heq as [-> ->].
  rewrite <- app_assoc in Hpair. cbn [app] in Hpair.
  destruct after' as [|y after'].
  - cbn [app] in Hpair. apply matchBold_pairAt in Hpair. congruence.
  - exact (Hpiece before (y :: after') eq_refl ltac:(discriminate) Hpair).
Qed.

(** The spans of the split are the decomposition of the text. *)
Lemma splitBold_Splits s :
  forall piece i,
    Nat.even i = true -> noPairIn piece s ->
    Splits (piece ++ s) (mapi spanAt i (splitBold piece s)).
Proof.
  assert (H : forall n s, (length s <= n)%nat ->
              forall piece i, Nat.even i = true -> noPairIn piece s ->
                Splits (piece ++ s) (mapi spanAt i (splitBold piece s))).
  { induction n as [|n IH]; intros [|c t] Hlen piece i Hi Hpiece; cbn [length] in Hlen;
      try lia.
    1,2: rewrite splitBold_nil, app_nil_r; cbn [mapi];
         destruct (spanAt_parity i piece piece Hi) as (-> & _ & _);
         now apply lastPlain.
    rewrite splitBold_cons.
    destruct (matchBold (c :: t)) as [[captured rest]|] eqn:Hm.
    - pose proof (matchBold_consumed _ _ _ Hm) as [Hs [Hlt _]].
      assert (Hnear : nearest captured).
      { unfold matchBold in Hm.
        destruct (startsWith (c :: t) (lit "**")); [|discriminate].
        exact (lazyGroup_nearest _ _ _ Hm). }
      assert (Hshort : (length rest <= n)%nat).
      { apply (f_equal (@length Z)) in Hs. rewrite !length_app in Hs.
        cbn [length lit] in Hs. cbn in Hs. lia. }
      cbn [mapi]. destruct (spanAt_parity i piece captured Hi) as (-> & -> & Hi').
      rewrite Hs in Hpiece |- *.
      apply plainThenBold; try assumption.
      exact (IH rest Hshort [] _ Hi' (noPairIn_nil rest)).
    - replace (piece ++ c :: t) with ((piece ++ [c]) ++ t)
        by (now rewrite <- app_assoc).
      apply IH; [lia | assumption | now apply noPairIn_snoc]. }
  intros piece i Hi Hpiece. apply (H (length s) s); [lia | exact Hi | exact Hpiece].
Qed.

(** A pair starts at the head of a pair. *)
Lemma pairAt_pair content rest :
  Forall (fun c => isLineTerminator c = false) content ->
  pairAt (lit "**" ++ content ++ lit "**" ++ rest).
Proof. intros Hlt. now exists content, rest. Qed.

(** The nearest closing marker is at one place only. *)
Lemma nearest_unique c1 r1 c2 r2 :
  nearest c1 -> nearest c2 ->
  c1 ++ lit "**" ++ r1 = c2 ++ lit "**" ++ r2 -> c1 = c2 /\ r1 = r2.
Proof.
  assert (Hlonger : forall a ra b rb l,
             nearest a -> a = b ++ l -> lit "**" ++ rb = l ++ lit "**" ++ ra -> l = []).
  { intros a ra b rb l Ha -> Hl. destruct l as [|x [|y l]]; [reflexivity | |];
      exfalso; cbn [app] in Hl.
    - injection Hl as <- _. apply (Ha b []). now rewrite <- app_assoc.
    - injection Hl as <- <- _. apply (Ha b (l ++ lit "*")).
      rewrite <- !app_assoc. reflexivity. }
  intros H1 H2 Heq. apply app_eq_app in Heq as [l [[Hc Hr] | [Hc Hr]]].
  - pose proof (Hlonger _ _ _ _ _ H1 Hc Hr) as ->.
    rewrite app_nil_r in Hc. cbn [app] in Hr. subst. split; [reflexivity|].
    now injection Hr as ->.
  - pose proof (Hlonger _ _ _ _ _ H2 Hc Hr) as ->.
    rewrite app_nil_r in Hc. cbn [app] in Hr. subst. split; [reflexivity|].
    now injection Hr as ->.
Qed.

(** A text has one decomposition. *)
Lemma Splits_unique text spans :
  Splits text spans -> forall spans', Splits text spans' -> spans = spans'.
Proof.
  induction 1 as [plain Hplain | plain content rest spans Hplain Hlt Hnear _ IH];
    intros spans' H'.
  - inversion H' as [plain' _ Hp Hs | plain' content' rest' spans'' _ Hlt' _ _ Hp Hs];
      [reflexivity|]. exfalso.
    apply (Hplain plain' (lit "**" ++ content' ++ lit "**" ++ rest') eq_refl);
      [discriminate|]. rewrite app_nil_r. now apply pairAt_pair.
  - remember (plain ++ lit "**" ++ content ++ lit "**" ++ rest) as text eqn:Htext.
    destruct H' as [plain' Hplain' | plain' content' rest' spans'' Hplain' Hlt' Hnear' Hrest'].
    + exfalso. subst plain'.
      apply (Hplain' plain (lit "**" ++ content ++ lit "**" ++ rest) eq_refl);
        [discriminate|]. rewrite app_nil_r. now apply pairAt_pair.
    + assert (plain = plain') as <-.
      { apply app_eq_app in Htext as [l [[Hp Hr] | [Hp Hr]]].
        - destruct l as [|x l]; [now rewrite app_nil_r in Hp|]. exfalso.
          apply (Hplain' plain (x :: l) Hp); [discriminate|].
          rewrite <- Hr. now apply pairAt_pair.
        - destruct l as [|x l]; [now rewrite app_nil_r in Hp|]. exfalso.
          apply (Hplain plain' (x :: l) Hp); [discriminate|].
          rewrite <- Hr. now apply pairAt_pair. }
      apply app_inv_head in Htext. injection Htext as Htext.
      destruct (nearest_unique _ _ _ _ Hnear' Hnear Htext) as [-> ->].
      now rewrite (IH _ Hrest').
Qed.

End Pairs.

(* ================================================================== *)
(** * The renderer: claims *)
(* ================================================================== *)

(** C3, as stated, fails where the number of an ordered item is followed
    by white space other than a space: by the rules as written the line
    ["1.<TAB>x"] is a paragraph, while the code makes it an ordered item
    holding ["x"]. *)
Lemma renderLine_tab_after_number :
  Classified isSpaceChar tabbedLine (p (formatInline tabbedLine)) /\
  renderLine tabbedLine = li_decimal (Text (lit "x")) /\
  renderLine tabbedLine <> p (formatInline tabbedLine).
Proof.
  split; [|split; [reflexivity | discriminate]].
  apply paragraph; try (intros [rest H]; discriminate H).
  - intros content (digits & w & Hne & Hd & Hw & Heq).
    destruct digits as [|d1 [|d2 digits]]; [congruence | |].
    + injection Heq as _ <- _. discriminate Hw.
    + injection Heq as _ <- _. inversion Hd as [|? ? _ Hd']; subst.
      inversion Hd' as [|? ? H46 _]. discriminate H46.
  - intros Hb. inversion Hb as [|? ? H49 _]. discriminate H49.
Qed.

(** C3, amended.  Every line gets the element of the first rule that
    applies, and no other: prefix ["### "], ["## "], ["# "] gives the
    heading of level 3, 2, 1 holding the remainder; prefix ["- "] or
    ["* "] gives an unordered item of the remainder; one or more digits, a
    ['.'] and one white-space character (anything [\s] matches: space,
    tab, no-break space, a line terminator, ...) give an ordered item of
    what follows that character, which may be empty; an empty or
    white-space-only line gives the blank element; any other line gives a
    paragraph of the line. *)
Theorem renderLine_rules (line : jsstring) :
  Classified isSpace line (renderLine line) /\
  forall block, Classified isSpace line block -> block = renderLine line.
Proof. exact (renderLine_classified line). Qed.

(** The tabbed line, and a heading as the only element the rules allow. *)
Lemma renderLine_rules_witness :
  Classified isSpace tabbedLine (renderLine tabbedLine) /\
  h2 (lit "Title") = renderLine (lit "# Title").
Proof.
  split.
  - exact (proj1 (renderLine_rules tabbedLine)).
  - apply (proj2 (renderLine_rules (lit "# Title"))).
    apply (heading1 isSpace (lit "# Title") (lit "Title")). reflexivity.
Defined.

(** C4, as stated, fails in two places.  A segment between two markers
    that holds a line terminator (here a carriage return) is not made
    bold: [.] does not match it, and the text is returned as it is.  And
    the text of a heading is not split at all: the heading keeps it with
    its markers, where the inline pass on the same text gives a bold
    span. *)
Lemma bold_pair_not_split :
  formatInline carriageLine = Text carriageLine /\
  renderMarkdown (str (lit "# **x**")) = Normal (Some [h2 (lit "**x**")]) /\
  formatInline (lit "**x**") =
  Spans [Fragment (lit ""); strong (lit "x"); Fragment (lit "")].
Proof. repeat split; vm_compute; reflexivity. Qed.

(** C4, amended.  The inline pass runs on the text of list items and
    paragraphs; a heading keeps its text as it is.  On a text, its spans
    are the decomposition of the text from left to right, and the only
    one, into plain segments in which no pair of markers starts and the
    contents of the pairs in between, which are bold; a pair is a marker
    and the nearest marker after it, with no line terminator in between.
    So every such pair becomes a bold span and every other segment a
    plain one.  The spans alternate from a plain one to a plain one (empty
    plain spans included) and, each bold span put back between two
    markers, read in order as the text.  A marker with no other asterisk
    before or after it stays in the text, which is returned as it is.
    The line ["plain **bold** text"] gives a paragraph of the spans plain
    ["plain "], bold ["bold"], plain [" text"]; a text with two pairs
    gives two bold spans. *)
Theorem formatInline_bold (text : jsstring) :
  (Splits text (spansOf (formatInline text)) /\
   forall spans, Splits text spans -> spans = spansOf (formatInline text)) /\
  (flat_map sourceOf (spansOf (formatInline text)) = text /\
   alternates (spansOf (formatInline text)) = true /\
   Forall wellFormedSpan (spansOf (formatInline text))) /\
  (forall left right,
     Forall (fun c => c <> 42) left -> Forall (fun c => c <> 42) right ->
     text = left ++ lit "**" ++ right -> formatInline text = Text text) /\
  (renderLine (lit "- " ++ text) = li_disc (formatInline text) /\
   renderLine (lit "* " ++ text) = li_disc (formatInline text) /\
   (forall children, renderLine text = li_decimal children ->
                     children = formatInline (replaceOrdered text)) /\
   (forall children, renderLine text = p children -> children = formatInline text)) /\
  (renderLine (lit "### " ++ text) = h4 text /\
   renderLine (lit "## " ++ text) = h3 text /\
   renderLine (lit "# " ++ text) = h2 text) /\
  renderMarkdown (str (lit "plain **bold** text")) =
  Normal (Some [p (Spans [Fragment (lit "plain "); strong (lit "bold");
                          Fragment (lit " text")])]) /\
  formatInline twoPairs =
  Spans [Fragment (lit "a "); strong (lit "b"); Fragment (lit " c ");
         strong (lit "d"); Fragment (lit " e")].
Proof.
  assert (Hsplits : Splits text (spansOf (formatInline text))).
  { rewrite formatInline_spans.
    exact (splitBold_Splits text [] 0 eq_refl (noPairIn_nil text)). }
  split; [|split; [|split; [|split; [|split; [|split]]]]].
  - split; [exact Hsplits|]. intros spans Hspans.
    exact (Splits_unique _ _ Hspans _ Hsplits).
  - rewrite formatInline_spans. apply (splitBold_spans text [] 0 eq_refl).
  - intros left right Hl Hr ->. unfold formatInline.
    rewrite splitBold_no_match by (now apply lone_marker_no_match).
    reflexivity.
  - repeat split; try reflexivity.
    + unfold renderLine. intros children.
      repeat match goal with
        | |- context [if ?b then _ else _] => destruct b
        end; try discriminate. now intros [= <-].
    + unfold renderLine. intros children.
      repeat match goal with
        | |- context [if ?b then _ else _] => destruct b
        end; try discriminate. now intros [= <-].
  - repeat split; reflexivity.
  - vm_compute. reflexivity.
  - vm_compute. reflexivity.
Qed.

(** A lone marker stays; a paragraph holds the spans of its line; the
    decomposition of a text with one pair is the result of the pass. *)
Lemma formatInline_bold_witness :
  formatInline (lit "a **b") = Text (lit "a **b") /\
  Spans [Fragment (lit ""); strong (lit "x"); Fragment (lit "")]
  = formatInline (lit "**x**") /\
  [Fragment (lit ""); strong (lit "x"); Fragment (lit "")]
  = spansOf (formatInline (lit "**x**")).
Proof.
  split; [|split].
  - apply (proj1 (proj2 (proj2 (formatInline_bold (lit "a **b")))) (lit "a ") (lit "b")).
    + repeat constructor; discriminate.
    + repeat constructor; discriminate.
    + reflexivity.
  - apply (proj2 (proj2 (proj1 (proj2 (proj2 (proj2
             (formatInline_bold (lit "**x**")))))))).
    vm_compute. reflexivity.
  - apply (proj2 (proj1 (formatInline_bold (lit "**x**")))).
    apply (plainThenBold [] (lit "x") [] [Fragment []]).
    + apply noPairIn_nil.
    + repeat constructor.
    + intros before after H.
      destruct before as [|? [|? before]]; try discriminate H.
      cbn [app] in H. injection H as _ _ H. destruct before; discriminate H.
    + apply lastPlain. apply noPairIn_nil.
Defined.

(** C9, as stated, fails: the two newlines delimit three empty lines, so
    there are three blank elements, not two. *)
Lemma renderMarkdown_newlines_not_two :
  exists blocks,
    renderMarkdown (str [10; 10]) = Normal (Some blocks) /\
    Forall (eq div_gap) blocks /\ length blocks = 3%nat /\ length blocks <> 2%nat.
Proof.
  eexists. split; [vm_compute; reflexivity|].
  repeat split; [repeat constructor | discriminate].
Qed.

(** C9, amended.  The input of two newline characters yields exactly
    three blank elements, one per line of the split. *)
Theorem renderMarkdown_two_newlines :
  split 10 [10; 10] = [lit ""; lit ""; lit ""] /\
  renderMarkdown (str [10; 10]) = Normal (Some [div_gap; div_gap; div_gap]).
Proof. split; vm_compute; reflexivity. Qed.

(** C8.  Both helpers return normally on every input, be it a string of
    any content, [undefined] or [null]: the only operation that can throw,
    a method call on an absent value, is guarded by the test [!fen], resp.
    [!text].  The loops and the string operations they run are total
    functions, by structural or well-founded recursion. *)
Theorem helpers_total :
  (forall fen : value, exists board, parseFEN fen = Normal board) /\
  (forall text : value, exists result, renderMarkdown text = Normal result) /\
  (forall text : jsstring, exists spans, spansOf (formatInline text) = spans
                                         /\ spans <> []).
Proof.
  split; [|split].
  - intros [| |[|c t]]; [eexists; reflexivity ..|].
    exists (map decodeRow (split 47 (beforeSpace (c :: t)))).
    apply parseFEN_rows. discriminate.
  - intros [| |[|c t]]; eexists; reflexivity.
  - intros text. eexists. split; [reflexivity|].
    destruct (splitBold_spans text [] 0 eq_refl) as (_ & Halt & _).
    rewrite formatInline_spans. intros Hnil. rewrite Hnil in Halt. discriminate Halt.
Qed.

(* ================================================================== *)
(** * The decoder and the board component: further properties *)
(* ================================================================== *)

Section BoardFacts.

Lemma str_eq_eq a b : str_eq a b = true <-> a = b.
Proof.
  revert b. induction a as [|x a IH]; intros [|y b]; cbn; try (split; congruence).
  rewrite andb_true_iff, Z.eqb_eq, IH. split; [intros [-> ->] | intros [= -> ->]]; auto.
Qed.

Lemma str_eq_refl a : str_eq a a = true.
Proof. now apply str_eq_eq. Qed.

Lemma codePoint_occupied char : isCodePoint char -> occupied char = true.
Proof. intros [[c ->] | (c & d & -> & _)]; reflexivity. Qed.

Lemma filter_repeat_empty (keep : jsstring -> bool) n :
  keep emptySquare = false -> filter keep (repeat emptySquare n) = [].
Proof. intros H. induction n as [|n IH]; cbn [repeat filter]; [|rewrite H]; auto. Qed.

Lemma mapi_length {A B} (f : A -> nat -> B) l i : length (mapi f i l) = length l.
Proof. revert i. induction l as [|x l IH]; intros i; cbn; [|rewrite IH]; reflexivity. Qed.

Lemma mapi_nth_error {A B} (f : A -> nat -> B) l :
  forall i k, nth_error (mapi f i l) k =
              option_map (fun x => f x (i + k)%nat) (nth_error l k).
Proof.
  induction l as [|x l IH]; intros i [|k]; cbn; try reflexivity.
  - now rewrite Nat.add_0_r.
  - rewrite IH. now replace (S i + k)%nat with (i + S k)%nat by lia.
Qed.

Lemma mapi_flat_map {A B C} (f : A -> nat -> B) (g : B -> list C) (h : A -> list C) l :
  (forall x i, g (f x i) = h x) ->
  forall i, flat_map g (mapi f i l) = flat_map h l.
Proof.
  intros Hg. induction l as [|x l IH]; intros i; cbn; [reflexivity|].
  now rewrite Hg, IH.
Qed.

(** A key found in a table is one of its keys. *)
Lemma lookup_In table key value :
  lookup table key = Some value -> In (key, value) table.
Proof.
  induction table as [|[k v] table IH]; cbn; [discriminate|].
  destruct (str_eq key k) eqn:Hk.
  - apply str_eq_eq in Hk as ->. intros [= ->]. now left.
  - intros H. right. now apply IH.
Qed.

Lemma lookup_digit char n : digit18 char = Some n -> lookup PIECES char = None.
Proof.
  unfold digit18. destruct char as [|d [|? ?]]; try discriminate.
  destruct ((49 <=? d) && (d <=? 56)) eqn:Hd; [|discriminate]. intros _.
  apply andb_prop in Hd as [H1 H2]. apply Z.leb_le in H1, H2.
  assert (d = 49 \/ d = 50 \/ d = 51 \/ d = 52 \/ d = 53 \/ d = 54 \/ d = 55 \/ d = 56)
    as Hcases by lia.
  repeat (destruct Hcases as [-> | Hcases]; [reflexivity|]). subst d. reflexivity.
Qed.

(** The glyph a square shows is the one of its cell in the table. *)
Lemma square_glyph toUpperCase rowIdx piece colIdx :
  match child (renderSquare toUpperCase rowIdx piece colIdx) with
  | Some (_, glyph) => [glyph]
  | None => []
  end =
  match lookup PIECES piece with Some glyph => [glyph] | None => [] end.
Proof.
  cbn [renderSquare child]. unfold pieceSpan.
  destruct piece as [|c piece]; [reflexivity|].
  now destruct (lookup PIECES (c :: piece)).
Qed.

Lemma row_glyphs toUpperCase rowIdx row :
  glyphsOf (mapi (renderSquare toUpperCase rowIdx) 0 (decodeRow row)) = piecesOf row.
Proof.
  unfold glyphsOf, piecesOf.
  rewrite (mapi_flat_map _ _ _ _ (square_glyph toUpperCase rowIdx)), decodeRow_cells.
  rewrite flat_map_app.
  replace (flat_map _ (repeat emptySquare (8 - cellCount row))) with (@nil jsstring).
  - rewrite app_nil_r. induction (codePoints row) as [|char chars IH]; [reflexivity|].
    cbn [flat_map]. rewrite flat_map_app, IH. f_equal.
    unfold cellsOf. destruct (digit18 char) as [n|] eqn:Hd.
    + rewrite (lookup_digit _ _ Hd). clear. induction n; cbn; auto.
    + cbn. now rewrite app_nil_r.
  - generalize (8 - cellCount row)%nat. induction n; cbn; auto.
Qed.

Lemma ChessBoard_rows toUpperCase fen :
  fen <> [] ->
  ChessBoard toUpperCase (str fen) =
  Normal {| rankLabels := RANKS;
            rows := mapi (fun row rowIdx => mapi (renderSquare toUpperCase rowIdx) 0 row) 0
                         (map decodeRow (split 47 (beforeSpace fen)));
            fileLabels := FILES |}.
Proof. intros Hne. unfold ChessBoard. now rewrite parseFEN_rows. Qed.

Lemma mapi_map {A B C} (f : B -> nat -> C) (g : A -> B) l :
  forall i, mapi f i (map g l) = mapi (fun x k => f (g x) k) i l.
Proof. induction l as [|x l IH]; intros i; cbn; [|rewrite IH]; reflexivity. Qed.

Lemma map_mapi {A B C} (f : A -> nat -> B) (g : B -> C) l :
  forall i, map g (mapi f i l) = mapi (fun x k => g (f x k)) i l.
Proof. induction l as [|x l IH]; intros i; cbn; [|rewrite IH]; reflexivity. Qed.

Lemma mapi_const {A B} (f : A -> B) l :
  forall i, mapi (fun x _ => f x) i l = map f l.
Proof. induction l as [|x l IH]; intros i; cbn; [|rewrite IH]; reflexivity. Qed.

Lemma parity_flip n : Nat.eqb (S n mod 2) 0 = negb (Nat.eqb (n mod 2) 0).
Proof.
  destruct (Nat.Even_or_Odd n) as [[k ->] | [k ->]].
  - replace (S (2 * k)) with (1 + k * 2)%nat by lia.
    replace (2 * k)%nat with (k * 2)%nat by lia.
    now rewrite Nat.Div0.mod_add, Nat.Div0.mod_mul.
  - replace (S (2 * k + 1)) with (S k * 2)%nat by lia.
    replace (2 * k + 1)%nat with (1 + k * 2)%nat by lia.
    now rewrite Nat.Div0.mod_add, Nat.Div0.mod_mul.
Qed.

Lemma background_flip toUpperCase r c piece piece' :
  background (renderSquare toUpperCase r piece (S c)) <>
  background (renderSquare toUpperCase r piece' c) /\
  background (renderSquare toUpperCase (S r) piece c) <>
  background (renderSquare toUpperCase r piece' c).
Proof.
  cbn [renderSquare background].
  replace (r + S c)%nat with (S (r + c)) by lia. cbn [Nat.add].
  rewrite parity_flip. destruct (Nat.eqb ((r + c) mod 2) 0); cbn; split; discriminate.
Qed.

End BoardFacts.

(** X1.  The occupied cells of a decoded rank, from left to right, are
    the characters of its descriptor that are not digits ['1'] to ['8']:
    no piece is lost, added or moved, and the padding is empty. *)
Theorem decodeRow_pieces (row : jsstring) :
  filter occupied (decodeRow row) = filter literalChar (codePoints row).
Proof.
  rewrite decodeRow_cells, filter_app, filter_repeat_empty, app_nil_r by reflexivity.
  induction (codePoints_shape row) as [|char chars Hchar _ IH]; [reflexivity|].
  cbn [flat_map filter]. rewrite filter_app, IH. unfold literalChar, cellsOf.
  destruct (digit18 char) as [n|].
  - now rewrite filter_repeat_empty.
  - cbn. now rewrite (codePoint_occupied _ Hchar).
Qed.

(** X2.  A placement of exactly eight descriptors that each expand to
    eight cells decodes to eight ranks of eight cells, each rank being the
    cells of its descriptor with no padding. *)
Theorem parseFEN_well_formed (fen : jsstring) :
  fen <> [] ->
  length (split 47 (beforeSpace fen)) = 8%nat ->
  Forall fullRank (split 47 (beforeSpace fen)) ->
  exists board,
    parseFEN (str fen) = Normal board /\
    length board = 8%nat /\
    Forall (fun rank : Rank => length rank = 8%nat) board /\
    board = map (fun row => flat_map cellsOf (codePoints row))
                (split 47 (beforeSpace fen)).
Proof.
  intros Hne Hcount Hfull. eexists. split; [now apply parseFEN_rows|].
  split; [now rewrite length_map|]. split.
  - apply Forall_map. eapply Forall_impl; [|exact Hfull].
    intros row Hrow. rewrite decodeRow_width. unfold fullRank in Hrow. lia.
  - apply map_ext_in. intros row Hin.
    rewrite Forall_forall in Hfull. specialize (Hfull row Hin). unfold fullRank in Hfull.
    rewrite decodeRow_cells, Hfull. cbn. apply app_nil_r.
Qed.

(** The starting position is well formed. *)
Lemma parseFEN_well_formed_witness :
  exists board,
    parseFEN (str INITIAL_FEN) = Normal board /\
    length board = 8%nat /\
    Forall (fun rank : Rank => length rank = 8%nat) board /\
    board = map (fun row => flat_map cellsOf (codePoints row))
                (split 47 (beforeSpace INITIAL_FEN)).
Proof.
  apply (parseFEN_well_formed INITIAL_FEN).
  - vm_compute. discriminate.
  - vm_compute. reflexivity.
  - let rws := eval vm_compute in (split 47 (beforeSpace INITIAL_FEN)) in
    change (Forall fullRank rws).
    repeat (constructor; [vm_compute; reflexivity|]). constructor.
Defined.

(** X3.  The board component shows the pieces of the position and
    nothing else: row by row, the glyphs on display, from left to right,
    are the glyphs of the piece letters of the descriptor, in its order;
    digits, padding and characters that are no piece letter show
    nothing. *)
Theorem ChessBoard_shows_pieces (toUpperCase : jsstring -> jsstring) (fen : jsstring) :
  fen <> [] ->
  exists view,
    ChessBoard toUpperCase (str fen) = Normal view /\
    map glyphsOf (rows view) = map piecesOf (split 47 (beforeSpace fen)).
Proof.
  intros Hne. eexists. split; [now apply ChessBoard_rows|]. cbn [rows].
  rewrite mapi_map, map_mapi.
  assert (Hrows : forall rws i,
             mapi (fun row k => glyphsOf (mapi (renderSquare toUpperCase k) 0 (decodeRow row)))
                  i rws = map piecesOf rws).
  { induction rws as [|row rws IH]; intros i; cbn [mapi map]; [reflexivity|].
    now rewrite row_glyphs, IH. }
  apply Hrows.
Qed.

(** A position with a character that is no piece, and an over-long rank. *)
Lemma ChessBoard_shows_pieces_witness :
  exists view,
    ChessBoard asciiUpperCase (str (lit "r3x2K9/8 w")) = Normal view /\
    map glyphsOf (rows view) = map piecesOf (split 47 (beforeSpace (lit "r3x2K9/8 w"))).
Proof.
  apply (ChessBoard_shows_pieces asciiUpperCase (lit "r3x2K9/8 w")).
  vm_compute. discriminate.
Defined.

Section ViewFacts.

Variable toUpperCase : jsstring -> jsstring.

Lemma Forall_mapi {A B} (P : B -> Prop) (f : A -> nat -> B) l :
  (forall x i, P (f x i)) -> forall i, Forall P (mapi f i l).
Proof.
  intros Hf. induction l as [|x l IH]; intros i; cbn; constructor; auto.
Qed.

(** The view of an input that [parseFEN] decodes to [board]. *)
Lemma ChessBoard_view fen view :
  ChessBoard toUpperCase fen = Normal view ->
  exists board,
    parseFEN fen = Normal board /\
    rows view = mapi (fun row rowIdx => mapi (renderSquare toUpperCase rowIdx) 0 row) 0 board.
Proof.
  unfold ChessBoard. destruct (parseFEN fen) as [board|]; cbn [bind]; [|discriminate].
  intros [= <-]. now exists board.
Qed.

(** The square at row [r] and column [c] of a view. *)
Lemma ChessBoard_square fen view r c row square :
  ChessBoard toUpperCase fen = Normal view ->
  nth_error (rows view) r = Some row -> nth_error row c = Some square ->
  exists piece, square = renderSquare toUpperCase r piece c.
Proof.
  intros Hview Hrow Hsq. apply ChessBoard_view in Hview as (board & _ & Hrows).
  rewrite Hrows, mapi_nth_error in Hrow.
  destruct (@nth_error (list jsstring) board r) as [rank|];
    cbn [option_map] in Hrow; [|discriminate].
  injection Hrow as <-. rewrite mapi_nth_error in Hsq.
  destruct (@nth_error jsstring rank c) as [piece|];
    cbn [option_map] in Hsq; [|discriminate].
  injection Hsq as <-.
  now exists piece.
Qed.

Lemma pieceSpan_glyph piece :
  raisesAscii toUpperCase ->
  pieceSpan toUpperCase piece = None \/
  exists glyph,
    In glyph (map snd PIECES) /\
    pieceSpan toUpperCase piece = Some (styleOfGlyph glyph, glyph).
Proof.
  intros Hup. unfold pieceSpan. destruct piece as [|c piece]; [now left|].
  destruct (lookup PIECES (c :: piece)) as [glyph|] eqn:Hl; [|now left].
  right. exists glyph. apply lookup_In in Hl. split.
  - apply in_map_iff. now exists (c :: piece, glyph).
  - cbn in Hl.
    repeat (destruct Hl as [Hl | Hl];
            [injection Hl as <- <- <-; rewrite Hup by reflexivity; reflexivity|]).
    contradiction.
Qed.

End ViewFacts.

(** X4.  The board is checkered: the top-left square is light, and every
    square differs in shade from the square to its right and from the
    square below it, whatever the position decoded, also on ranks of more
    than eight cells. *)
Theorem ChessBoard_checkered (toUpperCase : jsstring -> jsstring) (fen : value)
        (view : View) (r c : nat) (row : list SquareView) (square : SquareView) :
  ChessBoard toUpperCase fen = Normal view ->
  nth_error (rows view) r = Some row ->
  nth_error row c = Some square ->
  In (background square) [lightSquare; darkSquare] /\
  (r = 0%nat -> c = 0%nat -> background square = lightSquare) /\
  (forall right, nth_error row (S c) = Some right ->
                 background right <> background square) /\
  (forall row' below, nth_error (rows view) (S r) = Some row' ->
                      nth_error row' c = Some below ->
                      background below <> background square).
Proof.
  intros Hview Hrow Hsq.
  destruct (ChessBoard_square _ _ _ _ _ _ _ Hview Hrow Hsq) as [piece ->].
  repeat split.
  - cbn [renderSquare background].
    destruct (Nat.eqb ((r + c) mod 2) 0); cbn; auto.
  - intros -> ->. reflexivity.
  - intros right Hright.
    destruct (ChessBoard_square _ _ _ _ _ _ _ Hview Hrow Hright) as [piece' ->].
    apply background_flip.
  - intros row' below Hrow' Hbelow.
    destruct (ChessBoard_square _ _ _ _ _ _ _ Hview Hrow' Hbelow) as [piece' ->].
    apply background_flip.
Qed.

(** The square a1 of the starting position: bottom-left, dark. *)
Lemma ChessBoard_checkered_witness :
  exists view row square,
    ChessBoard asciiUpperCase (str INITIAL_FEN) = Normal view /\
    nth_error (rows view) 7 = Some row /\ nth_error row 0 = Some square /\
    background square = darkSquare /\
    forall right, nth_error row 1 = Some right -> background right <> background square.
Proof.
  eexists. eexists. eexists.
  split; [vm_compute; reflexivity|]. split; [reflexivity|]. split; [reflexivity|].
  split; [reflexivity|].
  refine (proj1 (proj2 (proj2
    (ChessBoard_checkered asciiUpperCase (str INITIAL_FEN) _ 7 0 _ _ _ _ _)))).
  - vm_compute. reflexivity.
  - reflexivity.
  - reflexivity.
Defined.

(** X5.  Whatever the input, a square of the board shows nothing or one
    of the twelve chess glyphs U+2654 to U+265F; a white piece's glyph
    always gets the light ink and a black piece's glyph the red ink. *)
Theorem ChessBoard_glyphs (toUpperCase : jsstring -> jsstring) :
  raisesAscii toUpperCase ->
  forall fen view,
    ChessBoard toUpperCase fen = Normal view ->
    Forall (Forall (fun square =>
                      child square = None \/
                      exists glyph,
                        In glyph (map snd PIECES) /\
                        child square = Some (styleOfGlyph glyph, glyph)))
           (rows view).
Proof.
  intros Hup fen view Hview.
  apply ChessBoard_view in Hview as (board & _ & ->).
  apply Forall_mapi. intros row rowIdx. apply Forall_mapi. intros piece colIdx.
  cbn [renderSquare child]. now apply pieceSpan_glyph.
Qed.

(** A position with characters that are no pieces. *)
Lemma ChessBoard_glyphs_witness :
  exists view,
    ChessBoard asciiUpperCase (str (lit "kx9K/Zq")) = Normal view /\
    Forall (Forall (fun square =>
                      child square = None \/
                      exists glyph,
                        In glyph (map snd PIECES) /\
                        child square = Some (styleOfGlyph glyph, glyph)))
           (rows view).
Proof.
  eexists. split; [vm_compute; reflexivity|].
  apply (ChessBoard_glyphs asciiUpperCase (fun s _ => eq_refl) (str (lit "kx9K/Zq"))).
  vm_compute. reflexivity.
Defined.

(** X6.  The board component returns normally on every input.  It
    renders one row per decoded rank and as many squares in a row as the
    rank has cells, the maximum of 8 and the cell count of the
    descriptor, but always 8 rank labels and 8 file labels: labels and
    squares line up when the placement has 8 descriptors of at most 8
    cells.  An empty or absent input gives 8 rows of 8 squares with no
    piece. *)
Theorem ChessBoard_shape (toUpperCase : jsstring -> jsstring) (fen : value) :
  exists view,
    ChessBoard toUpperCase fen = Normal view /\
    length (rankLabels view) = 8%nat /\ length (fileLabels view) = 8%nat /\
    match fen with
    | str (c :: t) =>
        Forall2 (fun row squares => length squares = Nat.max 8 (cellCount row))
                (split 47 (beforeSpace (c :: t))) (rows view)
    | _ =>
        length (rows view) = 8%nat /\
        Forall (fun squares => length squares = 8%nat /\
                               Forall (fun square => child square = None) squares)
               (rows view)
    end.
Proof.
  destruct fen as [| |[|c t]].
  1-3: eexists; split; [reflexivity|]; repeat split;
       repeat constructor.
  eexists. split; [apply ChessBoard_rows; discriminate|]. repeat split.
  cbn [rows]. rewrite mapi_map.
  assert (Hrows : forall rws i,
             Forall2 (fun row squares => length squares = Nat.max 8 (cellCount row)) rws
                     (mapi (fun row k => mapi (renderSquare toUpperCase k) 0 (decodeRow row))
                           i rws)).
  { induction rws as [|row rws IH]; intros i; cbn [mapi]; constructor; [|apply IH].
    now rewrite mapi_length, decodeRow_width. }
  apply Hrows.
Qed.

(* ================================================================== *)
(** * The classification helpers: properties *)
(* ================================================================== *)

(** Two different literals are different. *)
Ltac lit_neq := let H := fresh in intro H; vm_compute in H; discriminate H.

(** Case analysis on every word test of the goal. *)
Ltac word_cases :=
  repeat match goal with
    | |- context [str_eq ?c (lit ?w)] => destruct (str_eq c (lit w)) eqn:?
    end.

(** The same, one test at a time, stopping where [finish] concludes. *)
Ltac word_chain finish :=
  first [ solve [finish]
        | match goal with
          | |- context [str_eq ?c (lit ?w)] =>
              destruct (str_eq c (lit w)) eqn:?; cbn [orb]; word_chain finish
          end ].

Section LabelFacts.

Variable toLowerCase : jsstring -> jsstring.

Lemma graded v :
  In (classificationColor toLowerCase v, classificationSymbol toLowerCase v) grades.
Proof.
  unfold classificationColor, classificationSymbol.
  generalize (lowerOrEmpty toLowerCase v). intros c. unfold grades. cbn [In].
  word_chain ltac:(auto 10).
Qed.

Lemma classificationLabel_cases v :
  In (classificationLabel toLowerCase v)
     [lit "Excelente"; lit "Boa"; lit "Imprecisao"; lit "Erro"; lit "Blunder"] \/
  (classificationLabel toLowerCase v = orEmpty v /\
   forall s, lowerOrEmpty toLowerCase (str s) = lowerOrEmpty toLowerCase v ->
             classificationLabel toLowerCase (str s) = s).
Proof.
  unfold classificationLabel.
  generalize (lowerOrEmpty toLowerCase v). intros c.
  word_cases; cbn [In]; auto 10.
  right. split; [reflexivity|]. intros s ->.
  repeat match goal with H : str_eq _ _ = false |- _ => rewrite H; clear H end.
  reflexivity.
Qed.

Lemma difficultyLabel_cases v :
  In (difficultyLabel toLowerCase v)
     [lit "Iniciante"; lit "Intermediario"; lit "Avancado"; lit "Mestre"] \/
  (difficultyLabel toLowerCase v = orEmpty v /\
   forall s, lowerOrEmpty toLowerCase (str s) = lowerOrEmpty toLowerCase v ->
             difficultyLabel toLowerCase (str s) = s).
Proof.
  unfold difficultyLabel.
  generalize (lowerOrEmpty toLowerCase v). intros c.
  word_cases; cbn [In]; auto 10.
  right. split; [reflexivity|]. intros s ->.
  repeat match goal with H : str_eq _ _ = false |- _ => rewrite H; clear H end.
  reflexivity.
Qed.

(** The result of a label function on an input that is no string. *)
Lemma label_of_absent v :
  lowersAscii toLowerCase ->
  lowerOrEmpty toLowerCase (str (orEmpty v)) = lowerOrEmpty toLowerCase v.
Proof.
  intros Hlow. destruct v as [| |s]; cbn [lowerOrEmpty orEmpty]; try reflexivity;
    now rewrite (Hlow (lit "") eq_refl).
Qed.

End LabelFacts.

(** X7.  [classificationColor] and [classificationSymbol] grade every
    input, a string of any content or an absent one, alike: two inputs
    get the same style exactly when they get the same symbol; in
    particular the symbol is empty exactly when the style is the muted
    one. *)
Theorem classification_style_symbol (toLowerCase : jsstring -> jsstring) (a b : value) :
  (classificationColor toLowerCase a = classificationColor toLowerCase b <->
   classificationSymbol toLowerCase a = classificationSymbol toLowerCase b) /\
  (classificationSymbol toLowerCase a = lit "" <->
   classificationColor toLowerCase a = lit "bg-muted text-muted-foreground").
Proof.
  pose proof (graded toLowerCase a) as Ha. pose proof (graded toLowerCase b) as Hb.
  unfold grades in Ha, Hb. cbn [In] in Ha, Hb.
  repeat (destruct Ha as [Ha | Ha]; [| ]); try contradiction;
    injection Ha as <- <-;
    (repeat (destruct Hb as [Hb | Hb]; [| ]); try contradiction;
     injection Hb as <- <-;
     repeat split; intros H; first [reflexivity | vm_compute in H; discriminate H]).
Qed.

(** X8.  The two label functions are idempotent: a label, given back as
    input, is returned as it is, and so is the empty label of an absent
    input. *)
Theorem labels_idempotent (toLowerCase : jsstring -> jsstring) :
  lowersAscii toLowerCase ->
  forall v : value,
    classificationLabel toLowerCase (str (classificationLabel toLowerCase v)) =
    classificationLabel toLowerCase v /\
    difficultyLabel toLowerCase (str (difficultyLabel toLowerCase v)) =
    difficultyLabel toLowerCase v.
Proof.
  intros Hlow v. split.
  - destruct (classificationLabel_cases toLowerCase v) as [Hin | [Hv Hkeep]].
    + cbn [In] in Hin.
      repeat (destruct Hin as [<- | Hin];
              [unfold classificationLabel; cbn [lowerOrEmpty];
               rewrite Hlow by reflexivity; reflexivity|]).
      contradiction.
    + rewrite Hv. apply Hkeep. now apply label_of_absent.
  - destruct (difficultyLabel_cases toLowerCase v) as [Hin | [Hv Hkeep]].
    + cbn [In] in Hin.
      repeat (destruct Hin as [<- | Hin];
              [unfold difficultyLabel; cbn [lowerOrEmpty];
               rewrite Hlow by reflexivity; reflexivity|]).
      contradiction.
    + rewrite Hv. apply Hkeep. now apply label_of_absent.
Qed.

(** A grade word in capitals, and a difficulty. *)
Lemma labels_idempotent_witness :
  classificationLabel asciiLowerCase
    (str (classificationLabel asciiLowerCase (str (lit "BLUNDER")))) =
  classificationLabel asciiLowerCase (str (lit "BLUNDER")) /\
  difficultyLabel asciiLowerCase
    (str (difficultyLabel asciiLowerCase (str (lit "BLUNDER")))) =
  difficultyLabel asciiLowerCase (str (lit "BLUNDER")).
Proof.
  apply (labels_idempotent asciiLowerCase (fun s _ => eq_refl) (str (lit "BLUNDER"))).
Defined.

(** X9.  Whenever [classificationLabel] translates a word, that is,
    returns something else than its input, the word also has a grade
    symbol and a style other than the muted one. *)
Theorem label_implies_grade (toLowerCase : jsstring -> jsstring) (s : jsstring) :
  classificationLabel toLowerCase (str s) <> s ->
  classificationSymbol toLowerCase (str s) <> lit "" /\
  classificationColor toLowerCase (str s) <> lit "bg-muted text-muted-foreground".
Proof.
  unfold classificationLabel, classificationSymbol, classificationColor.
  cbn [lowerOrEmpty orEmpty]. generalize (toLowerCase s). intros c.
  word_chain ltac:(first [ intros _; split; lit_neq | intros Hlabel; congruence ]).
Qed.

(** An English word with a capital. *)
Lemma label_implies_grade_witness :
  classificationSymbol asciiLowerCase (str (lit "Mistake")) <> lit "" /\
  classificationColor asciiLowerCase (str (lit "Mistake"))
  <> lit "bg-muted text-muted-foreground".
Proof.
  apply (label_implies_grade asciiLowerCase (lit "Mistake")). vm_compute. discriminate.
Defined.

(** X10.  The five English grade words are recognised in any letter
    case: an ASCII input that is one of them up to the case of its letters
    gets the Portuguese label, the style and the symbol of that grade. *)
Theorem english_any_case (toLowerCase : jsstring -> jsstring) :
  lowersAscii toLowerCase ->
  forall s word label style symbol,
    In (word, (label, style, symbol)) english ->
    forallb isAscii s = true ->
    map asciiLower s = word ->
    classificationLabel toLowerCase (str s) = label /\
    classificationColor toLowerCase (str s) = style /\
    classificationSymbol toLowerCase (str s) = symbol.
Proof.
  intros Hlow s word label style symbol Hin Hascii Hword.
  unfold classificationLabel, classificationColor, classificationSymbol.
  cbn [lowerOrEmpty]. rewrite (Hlow s Hascii), Hword.
  unfold english in Hin. cbn [In] in Hin.
  repeat (destruct Hin as [Hin | Hin]; [injection Hin as <- <- <- <-; now vm_compute|]).
  contradiction.
Qed.

(** A grade word in mixed case. *)
Lemma english_any_case_witness :
  classificationLabel asciiLowerCase (str (lit "InAccuracy")) = lit "Imprecisao" /\
  classificationColor asciiLowerCase (str (lit "InAccuracy")) = lit "bg-yellow-600 text-white" /\
  classificationSymbol asciiLowerCase (str (lit "InAccuracy")) = lit "?!".
Proof.
  apply (english_any_case asciiLowerCase (fun s _ => eq_refl) (lit "InAccuracy")
                          (lit "inaccuracy")).
  - unfold english. cbn [In]. right. right. left. reflexivity.
  - reflexivity.
  - reflexivity.
Defined.

(** X11.  The badge and the menu of the puzzle section agree: every key
    of the difficulty menu, in any letter case, is translated by
    [difficultyLabel] to the label the menu shows for it. *)
Theorem difficulty_menu (toLowerCase : jsstring -> jsstring) :
  lowersAscii toLowerCase ->
  forall s key label,
    In (key, label) difficulties ->
    forallb isAscii s = true ->
    map asciiLower s = key ->
    difficultyLabel toLowerCase (str s) = label.
Proof.
  intros Hlow s key label Hin Hascii Hkey.
  unfold difficultyLabel. cbn [lowerOrEmpty]. rewrite (Hlow s Hascii), Hkey.
  unfold difficulties in Hin. cbn [In] in Hin.
  repeat (destruct Hin as [Hin | Hin]; [injection Hin as <- <-; now vm_compute|]).
  contradiction.
Qed.

(** A key of the menu. *)
Lemma difficulty_menu_witness :
  difficultyLabel asciiLowerCase (str (lit "advanced")) = lit "Avancado".
Proof.
  apply (difficulty_menu asciiLowerCase (fun s _ => eq_refl) (lit "advanced")
                         (lit "advanced")).
  - unfold difficulties. cbn [In]. right. right. left. reflexivity.
  - reflexivity.
  - reflexivity.
Defined.

(* ================================================================== *)
(** * The puzzle section: properties *)
(* ================================================================== *)

Section PuzzleFacts.

Lemma updateStats_ordered isCorrect prev :
  countersOrdered prev -> countersOrdered (updateStats isCorrect prev).
Proof.
  unfold countersOrdered, updateStats, plusOne, maxExact. cbn [streak total correct].
  intros H. destruct isCorrect;
    repeat match goal with |- context [?a <? ?b] => destruct (Z.ltb_spec a b) end; lia.
Qed.

Lemma statsAfter_snoc answers isCorrect :
  statsAfter (answers ++ [isCorrect]) = updateStats isCorrect (statsAfter answers).
Proof. unfold statsAfter. now rewrite fold_left_app. Qed.

Lemma runOfCorrect_bound l : 0 <= runOfCorrect l <= Z.of_nat (length l).
Proof.
  induction l as [|[|] l IH]; cbn [runOfCorrect length]; lia.
Qed.

Lemma count_true_bound l : (count_occ bool_dec l true <= length l)%nat.
Proof. apply count_occ_bound. Qed.

End PuzzleFacts.

(** X12.  After any run of answers the counters are ordered,
    [0 <= streak <= correct <= total], and never leave the range of the
    integers a number holds exactly. *)
Theorem stats_ordered (answers : list bool) :
  0 <= streak (statsAfter answers) <= correct (statsAfter answers) /\
  correct (statsAfter answers) <= total (statsAfter answers) <= maxExact.
Proof.
  change (countersOrdered (statsAfter answers)).
  induction answers as [|isCorrect answers IH] using rev_ind.
  - unfold countersOrdered, maxExact. cbn. lia.
  - rewrite statsAfter_snoc. now apply updateStats_ordered.
Qed.

(** X13.  As long as no more than 2^53 answers were given, the counters
    count: [total] is the number of answers, [correct] the number of
    correct ones, and [streak] the number of correct answers since the
    last wrong one. *)
Theorem stats_count (answers : list bool) :
  Z.of_nat (length answers) <= maxExact ->
  total (statsAfter answers) = Z.of_nat (length answers) /\
  correct (statsAfter answers) = Z.of_nat (count_occ bool_dec answers true) /\
  streak (statsAfter answers) = runOfCorrect (rev answers).
Proof.
  induction answers as [|isCorrect answers IH] using rev_ind; intros Hlen.
  - repeat split.
  - rewrite length_app in Hlen. cbn [length] in Hlen.
    destruct IH as (Ht & Hc & Hs); [lia|].
    rewrite statsAfter_snoc, rev_app_distr, count_occ_app, length_app.
    pose proof (count_true_bound answers) as Hcb.
    pose proof (runOfCorrect_bound (rev answers)) as Hrb. rewrite length_rev in Hrb.
    unfold updateStats, plusOne. cbn [streak total correct]. rewrite Ht, Hc, Hs.
    destruct isCorrect; cbn [rev app runOfCorrect count_occ length];
      repeat match goal with |- context [?a <? ?b] => destruct (Z.ltb_spec a b) end;
      try (destruct (bool_dec _ _); try congruence); lia.
Qed.

(** Four answers with one wrong answer among them. *)
Lemma stats_count_witness :
  total (statsAfter [true; false; true; true]) = 4 /\
  correct (statsAfter [true; false; true; true]) = 3 /\
  streak (statsAfter [true; false; true; true]) = 2.
Proof.
  apply (stats_count [true; false; true; true]). vm_compute. discriminate.
Defined.

Section HintFacts.

Lemma afterClicks_min puzzle clicks :
  forall h,
    0 <= h <= Z.of_nat (length (hintsOf puzzle)) ->
    afterClicks puzzle clicks h =
    Z.min (h + Z.of_nat clicks) (Z.of_nat (length (hintsOf puzzle))).
Proof.
  induction clicks as [|clicks IH]; intros h Hh; cbn [afterClicks].
  - lia.
  - unfold revealHint.
    destruct (Z.ltb_spec h (Z.of_nat (length (hintsOf puzzle)))); rewrite IH; lia.
Qed.

End HintFacts.


(** X15.  The hint button is disabled exactly when a click would change
    nothing: for a counter that is not negative, [disabled] holds if and
    only if [revealHint] leaves the counter as it is. *)
Theorem hint_button (displayPuzzle : option (list jsstring)) (hintsRevealed : Z) :
  0 <= hintsRevealed ->
  (hintButtonDisabled displayPuzzle hintsRevealed = true <->
   revealHint displayPuzzle hintsRevealed = hintsRevealed).
Proof.
  intros Hh. unfold hintButtonDisabled, revealHint.
  destruct displayPuzzle as [hints|]; cbn [hintsOf length].
  - destruct (Z.leb_spec (Z.of_nat (length hints)) hintsRevealed),
             (Z.ltb_spec hintsRevealed (Z.of_nat (length hints)));
      split; intros; try reflexivity; try discriminate; lia.
  - destruct (Z.ltb_spec hintsRevealed (Z.of_nat 0)); split; intros; try reflexivity; lia.
Qed.

(** Both hints revealed: the button is disabled and a click does nothing. *)
Lemma hint_button_witness :
  hintButtonDisabled (Some [lit "a"; lit "b"]) 2 = true <->
  revealHint (Some [lit "a"; lit "b"]) 2 = 2.
Proof.
  apply (hint_button (Some [lit "a"; lit "b"]) 2). lia.
Defined.

(* ================================================================== *)
(** * The play section: properties *)
(* ================================================================== *)

Section MoveFacts.

Lemma trimStart_suffix s : exists spaces, s = spaces ++ trimStart s.
Proof.
  induction s as [|c t [spaces IH]]; [now exists []|]. cbn [trimStart].
  destruct (isSpace c); [|now exists []].
  exists (c :: spaces). cbn [app]. now rewrite <- IH.
Qed.

Lemma trimStart_head s c t : trimStart s = c :: t -> isSpace c = false.
Proof.
  induction s as [|x s IH]; cbn [trimStart]; [discriminate|].
  destruct (isSpace x) eqn:Hx; [exact IH | now intros [= <- _]].
Qed.

Lemma trimStart_keep c t : isSpace c = false -> trimStart (c :: t) = c :: t.
Proof. intros H. cbn [trimStart]. now rewrite H. Qed.

(** Trimming twice is trimming once. *)
Lemma trim_idem s : trim (trim s) = trim s.
Proof.
  unfold trim. set (a := trimStart s). set (b := trimStart (rev a)).
  assert (Hkeep : trimStart (rev b) = rev b).
  { destruct (rev b) as [|c r] eqn:Hrb; [reflexivity|].
    apply trimStart_keep.
    destruct (trimStart_suffix (rev a)) as [spaces Hsp]. fold b in Hsp.
    apply (f_equal (@rev Z)) in Hsp. rewrite rev_involutive, rev_app_distr, Hrb in Hsp.
    cbn [app] in Hsp. exact (trimStart_head s c _ Hsp). }
  rewrite Hkeep, rev_involutive. unfold b. now rewrite trimStart_fixed.
Qed.

Variable ChessAnalysis : Type.

Lemma run_snoc events e :
  run ChessAnalysis (events ++ [e]) = step ChessAnalysis (run ChessAnalysis events) e.
Proof. unfold run. now rewrite fold_left_app. Qed.

(** What pressing the move button does to the move list. *)
Lemma handleAddMove_history s :
  (trim (moveInput s) = [] /\ handleAddMove ChessAnalysis s = s) \/
  (trim (moveInput s) <> [] /\
   moveHistory (handleAddMove ChessAnalysis s) = moveHistory s ++ [trim (moveInput s)] /\
   moveInput (handleAddMove ChessAnalysis s) = []).
Proof.
  unfold handleAddMove. destruct (trim (moveInput s)) as [|c t] eqn:Ht; cbn.
  - now left.
  - right. repeat split. discriminate.
Qed.

End MoveFacts.


Section NumberFacts.

Lemma moveEntry_even k move :
  moveEntry move (2 * k) = (Some (S k), move) /\ moveEntry move (S (2 * k)) = (None, move).
Proof.
  unfold moveEntry.
  replace (S (2 * k)) with (1 + k * 2)%nat by lia.
  replace (2 * k)%nat with (k * 2)%nat by lia.
  rewrite Nat.Div0.mod_add, Nat.Div0.mod_mul, Nat.div_mul by lia.
  cbn [Nat.eqb Nat.modulo]. split; [f_equal; f_equal; lia | reflexivity].
Qed.

Lemma numbers_from history :
  forall k, numbersOf (mapi moveEntry (2 * k) history) =
            seq (S k) ((length history + 1) / 2).
Proof.
  assert (H : forall n history, (length history <= n)%nat ->
              forall k, numbersOf (mapi moveEntry (2 * k) history) =
                        seq (S k) ((length history + 1) / 2)).
  { induction n as [|n IH]; intros [|m1 [|m2 history']] Hlen k; cbn [length] in Hlen;
      try lia; try reflexivity.
    - cbn [mapi]. destruct (moveEntry_even k m1) as [-> _]. reflexivity.
    - cbn [mapi]. destruct (moveEntry_even k m1) as [-> _].
      destruct (moveEntry_even k m2) as [_ ->].
      replace (S (S (2 * k))) with (2 * S k)%nat by lia.
      unfold numbersOf in *. cbn [flat_map fst app].
      rewrite (IH history' ltac:(lia) (S k)).
      change (length (m1 :: m2 :: history')) with (S (S (length history'))).
      assert (Hdiv : ((S (S (length history')) + 1) / 2 =
                      S ((length history' + 1) / 2))%nat).
      { replace (S (S (length history')) + 1)%nat
          with (length history' + 1 + 1 * 2)%nat by lia.
        rewrite Nat.div_add by lia. lia. }
      rewrite Hdiv. reflexivity. }
  intros k. apply (H (length history)). lia.
Qed.

End NumberFacts.


(* ================================================================== *)
(** * Lines and ranks: properties of the splits *)
(* ================================================================== *)

Section SplitFacts.

Variable sep : Z.

Lemma split_cons c t :
  exists piece pieces,
    split sep t = piece :: pieces /\
    split sep (c :: t) = if c =? sep then [] :: piece :: pieces
                         else (c :: piece) :: pieces.
Proof.
  cbn [split]. destruct (split sep t) as [|piece pieces] eqn:Ht.
  - now apply split_nonempty in Ht.
  - exists piece, pieces. split; [reflexivity|]. now destruct (c =? sep).
Qed.

(** The pieces of a split, put back around the separator, are the text. *)
Lemma split_join s : join sep (split sep s) = s.
Proof.
  induction s as [|c t IH]; [reflexivity|].
  destruct (split_cons c t) as (piece & pieces & Ht & ->). rewrite Ht in IH.
  destruct (Z.eqb_spec c sep) as [-> | Hc].
  - change (join sep ([] :: piece :: pieces))
      with ([] ++ sep :: join sep (piece :: pieces)).
    cbn [app]. now rewrite IH.
  - destruct pieces as [|piece' pieces].
    + cbn [join] in *. now rewrite IH.
    + change (join sep ((c :: piece) :: piece' :: pieces))
        with (c :: (piece ++ sep :: join sep (piece' :: pieces))).
      change (join sep (piece :: piece' :: pieces))
        with (piece ++ sep :: join sep (piece' :: pieces)) in IH.
      now rewrite IH.
Qed.

(** There is one piece more than there are separators. *)
Lemma split_length s : length (split sep s) = S (count_occ Z.eq_dec s sep).
Proof.
  induction s as [|c t IH]; [reflexivity|].
  destruct (split_cons c t) as (piece & pieces & Ht & ->). rewrite Ht in IH.
  cbn [count_occ]. destruct (Z.eqb_spec c sep) as [-> | Hc].
  - destruct (Z.eq_dec sep sep); [|congruence]. cbn [length] in *. lia.
  - destruct (Z.eq_dec c sep); [congruence|]. cbn [length] in *. lia.
Qed.

(** No piece holds the separator. *)
Lemma split_pieces s : Forall (fun piece => ~ In sep piece) (split sep s).
Proof.
  induction s as [|c t IH]; [repeat constructor; auto|].
  destruct (split_cons c t) as (piece & pieces & Ht & ->). rewrite Ht in IH.
  inversion IH as [|? ? Hpiece Hpieces]; subst.
  destruct (Z.eqb_spec c sep) as [-> | Hc].
  - constructor; [auto | now constructor].
  - constructor; [|assumption]. intros [-> | Hin]; [congruence | contradiction].
Qed.

End SplitFacts.

(** X18.  A non-empty text is rendered line by line: there is one block
    per line, that is, one more than there are newline characters, the
    blocks are the renderings of the lines in their order, no line holds a
    newline, and the lines joined by newlines are the text. *)
Theorem renderMarkdown_lines (text : jsstring) :
  text <> [] ->
  exists blocks,
    renderMarkdown (str text) = Normal (Some blocks) /\
    blocks = map renderLine (split 10 text) /\
    length blocks = S (count_occ Z.eq_dec text 10) /\
    Forall (fun line => ~ In 10 line) (split 10 text) /\
    join 10 (split 10 text) = text.
Proof.
  intros Hne. exists (map renderLine (split 10 text)).
  destruct text as [|c t]; [congruence|].
  split; [reflexivity|]. split; [reflexivity|].
  split; [now rewrite length_map, split_length|].
  split; [apply split_pieces | apply split_join].
Qed.

(** A heading and a list item on two lines. *)
Lemma renderMarkdown_lines_witness :
  exists blocks,
    renderMarkdown (str (lit "# a" ++ [10] ++ lit "- b")) = Normal (Some blocks) /\
    blocks = map renderLine (split 10 (lit "# a" ++ [10] ++ lit "- b")) /\
    length blocks = S (count_occ Z.eq_dec (lit "# a" ++ [10] ++ lit "- b") 10) /\
    Forall (fun line => ~ In 10 line) (split 10 (lit "# a" ++ [10] ++ lit "- b")) /\
    join 10 (split 10 (lit "# a" ++ [10] ++ lit "- b")) = lit "# a" ++ [10] ++ lit "- b".
Proof.
  apply (renderMarkdown_lines (lit "# a" ++ [10] ++ lit "- b")). vm_compute. discriminate.
Defined.

(** X19.  A non-empty FEN decodes to one more rank than there are
    slashes before its first space; the descriptors hold no slash and no
    space and, joined by slashes, are the text before the first space. *)
Theorem parseFEN_rank_count (fen : jsstring) :
  fen <> [] ->
  exists board,
    parseFEN (str fen) = Normal board /\
    length board = S (count_occ Z.eq_dec (beforeSpace fen) 47) /\
    Forall (fun row => ~ In 47 row /\ ~ In 32 row) (split 47 (beforeSpace fen)) /\
    join 47 (split 47 (beforeSpace fen)) = beforeSpace fen.
Proof.
  intros Hne. eexists. split; [now apply parseFEN_rows|].
  split; [now rewrite length_map, split_length|].
  split; [|apply split_join].
  assert (Hfield : ~ In 32 (beforeSpace fen)).
  { clear Hne. induction fen as [|c t IH]; cbn [beforeSpace]; [auto|].
    destruct (Z.eqb_spec c 32); [auto|]. intros [-> | Hin]; [congruence | auto]. }
  pose proof (split_pieces 47 (beforeSpace fen)) as Hrows.
  pose proof (split_join 47 (beforeSpace fen)) as Hjoin.
  rewrite <- Hjoin in Hfield. clear Hjoin.
  induction Hrows as [|row rws Hrow _ IH]; constructor.
  - split; [assumption|]. intros Hin. apply Hfield.
    destruct rws; cbn [join]; [assumption|]. apply in_or_app. now left.
  - apply IH. intros Hin. apply Hfield.
    destruct rws as [|row' rws]; [contradiction|].
    cbn [join]. apply in_or_app. right. now right.
Qed.

(** Four descriptors, one of them empty, and later fields. *)
Lemma parseFEN_rank_count_witness :
  exists board,
    parseFEN (str (lit "8/4k3//K w - -")) = Normal board /\
    length board = S (count_occ Z.eq_dec (beforeSpace (lit "8/4k3//K w - -")) 47) /\
    Forall (fun row => ~ In 47 row /\ ~ In 32 row)
           (split 47 (beforeSpace (lit "8/4k3//K w - -"))) /\
    join 47 (split 47 (beforeSpace (lit "8/4k3//K w - -")))
    = beforeSpace (lit "8/4k3//K w - -").
Proof.
  apply (parseFEN_rank_count (lit "8/4k3//K w - -")). vm_compute. discriminate.
Defined.

(** X20.  A text with no two asterisks in a row passes the inline pass
    unchanged: [formatInline] returns the text itself. *)
Theorem formatInline_plain (text : jsstring) :
  (forall before after, text <> before ++ lit "**" ++ after) ->
  formatInline text = Text text.
Proof.
  intros Hplain. unfold formatInline. rewrite splitBold_no_match; [reflexivity|].
  intros before after ->. unfold matchBold.
  destruct (startsWith after (lit "**")) eqn:Hs; [|reflexivity].
  apply startsWith_prefix in Hs as [rest ->]. now destruct (Hplain before rest).
Qed.

(** Single asterisks are no markers. *)
Lemma formatInline_plain_witness :
  formatInline (lit "2 * 3 = 6") = Text (lit "2 * 3 = 6").
Proof.
  apply (formatInline_plain (lit "2 * 3 = 6")).
  intros before after H.
  repeat (destruct before as [|? before]; [discriminate H|];
          cbn [app] in H; injection H as _ H).
  destruct before; discriminate H.
Defined.
